(** * Hijack! Chess: the room / matchmaking / relay coordinator of [server.js]

    A shallow embedding of the Socket.IO handlers registered in
    [io.on('connection', ...)] of [src/server.js], and the properties of the
    room store, the matchmaking queue and the event relay.

    What is embedded
    - [rooms] (a JS [Map] from room id to room object) is a [gmap string Room.t];
    - [matchmakingQueue] (a JS array) is a [list Entry.t]; array indices are
      [Z], with [-1] for "not found" as [findIndex] and the scan loop have it;
    - the Socket.IO adapter (which socket has joined which channel) is the
      [channels] field: [socket.join], [socket.leave], [socket.to(r).emit],
      [io.to(r).emit] and [socket.emit] act on it as the library documents
      (every socket joins the channel named by its own id on connection and
      leaves every channel when its transport closes; [socket.to(r)] skips
      the members of the channel named by the sender's id);
    - a handler is a function from the state to a [result]: the new state and
      the list of deliveries [(recipient, event)], or [Throw] where the
      JavaScript would raise a [TypeError] (a property read on [undefined]).

    What is left out: [console.log], the session and visitor stores
    ([activeSessions] and the MongoDB calls), the [analyticsUpdate]
    broadcast and the static file routes.  None of them reads or writes
    [rooms], [matchmakingQueue] or the adapter.  The [analytics] counters
    are embedded apart, in the module [Analytics].

    The [disconnect] handler is [async]: it removes the queue entry, then
    awaits the session store, and only then cleans the rooms; other
    handlers can run in between.  It is embedded as two transitions,
    [disconnectBegin] and [disconnectResume]; the [closing] field of the
    state holds the sockets whose handler is suspended at the [await].
    [disconnect] is the two run back to back. *)

From Stdlib Require Import ZArith Lia Ascii String.
From Stdlib.Strings Require Import Byte.
From stdpp Require Import base option list strings gmap.

#[local] Set Warnings "-clear-no-such-hyp".

Local Open Scope string_scope.
Local Open Scope Z_scope.
Local Open Scope list_scope.

(* ===================================================================== *)
(** ** JavaScript values and helpers *)
(* ===================================================================== *)

(** A thrown exception or a value. *)
Inductive result (A : Type) : Type :=
| Ok (a : A)
| Throw (what : string).
Arguments Ok {A} a.
Arguments Throw {A} what.

#[global] Instance result_ret : MRet result := λ A a, Ok a.
#[global] Instance result_bind : MBind result := λ A B f r,
  match r with
  | Ok a => f a
  | Throw e => Throw e
  end.

(** Reading a property of [v]: a [TypeError] when [v] is [undefined]. *)
Definition defined {A : Type} (v : option A) : result A :=
  match v with
  | Some a => Ok a
  | None => Throw "TypeError: Cannot read properties of undefined"
  end.

(** The handler returned: it did not throw. *)
Definition is_Ok {A : Type} (r : result A) : Prop := ∃ a, r = Ok a.

Module JSArray.
Section JSArray.
Context {A : Type}.

(** [arr.findIndex(p)], also the shape of a [for] loop that records the
    first index satisfying [p] and breaks; [from] is the index of the
    head of [arr]. *)
Fixpoint findIndexFrom (from : Z) (p : A → bool) (arr : list A) : Z :=
  match arr with
  | [] => -1
  | x :: rest => if p x then from else findIndexFrom (from + 1) p rest
  end.

Definition findIndex (p : A → bool) (arr : list A) : Z :=
  findIndexFrom 0 p arr.

(** [arr[i]]: [undefined] out of range. *)
Definition at_index (arr : list A) (i : Z) : option A :=
  if bool_decide (0 ≤ i)%Z then arr !! Z.to_nat i else None.

(** [arr.splice(i, 1)] for [i >= 0]: removes the element at [i], nothing
    when [i] is past the end.  (The handlers guard against [i = -1].) *)
Definition splice1 (i : Z) (arr : list A) : list A :=
  delete (Z.to_nat i) arr.

(** [arr.push(x)] *)
Definition push (x : A) (arr : list A) : list A := arr ++ [x].
End JSArray.
End JSArray.

(** [crypto.randomBytes(3).toString('hex').toUpperCase()] *)
Definition hexDigit (n : N) : ascii :=
  match n with
  | 0 => "0" | 1 => "1" | 2 => "2" | 3 => "3" | 4 => "4" | 5 => "5"
  | 6 => "6" | 7 => "7" | 8 => "8" | 9 => "9" | 10 => "a" | 11 => "b"
  | 12 => "c" | 13 => "d" | 14 => "e" | _ => "f"
  end%N%char.

Fixpoint toStringHex (buf : list Byte.byte) : string :=
  match buf with
  | [] => EmptyString
  | b :: rest =>
      String (hexDigit (Byte.to_N b / 16))
        (String (hexDigit (Byte.to_N b mod 16)) (toStringHex rest))
  end.

Definition upperChar (c : ascii) : ascii :=
  let n := N_of_ascii c in
  if ((97 <=? n) && (n <=? 122))%N then ascii_of_N (n - 32) else c.

Fixpoint toUpperCase (s : string) : string :=
  match s with
  | EmptyString => EmptyString
  | String c rest => String (upperChar c) (toUpperCase rest)
  end.

(* ===================================================================== *)
(** ** Data model *)
(* ===================================================================== *)

(** A room object: [{ players, white, black, timeControl }]. *)
Module Room.
Record t : Type := mk {
  players : list string;
  white : string;
  black : option string;
  timeControl : option string
}.
Definition with_players (ps : list string) (r : t) : t :=
  mk ps (white r) (black r) (timeControl r).
Definition with_black (b : option string) (r : t) : t :=
  mk (players r) (white r) b (timeControl r).
Definition with_timeControl (tc : option string) (r : t) : t :=
  mk (players r) (white r) (black r) tc.
End Room.

(** A queue entry: [{ socketId, timeControl, ignoreTime }]. *)
Module Entry.
Record t : Type := mk {
  socketId : string;
  timeControl : string;
  ignoreTime : bool
}.
End Entry.

(** The fields of a [move] signal other than [roomId]; each is an opaque
    client value, relayed as received. *)
Record MovePayload : Type := {
  mv_from : string;
  mv_to : string;
  mv_moveType : string;
  mv_whiteTime : string;
  mv_blackTime : string;
  mv_timestamp : string
}.

Inductive Color := ColorWhite | ColorBlack.

(** The events the coordinator emits. *)
Inductive Event : Type :=
| RequestFingerprint
| RoomCreated (roomId : string)
| ErrorMessage (message : string)
| RoomJoined (roomId : string)
| TimeControlSync (timeControl : string)
| OpponentJoined
| OpponentMove (payload : MovePayload)
| GameOverEv (reason : string)
| RematchRequestEv
| RematchAccepted
| RematchDeclined
| MatchFound (roomId : string) (color : Color) (timeControl : string)
| Searching
| OpponentDisconnected.

(** One delivery: the receiving socket and the event. *)
Abbreviation Delivery := (string * Event)%type.

Record State : Type := mkState {
  rooms : gmap string Room.t;
  matchmakingQueue : list Entry.t;
  sockets : gset string;                 (* io.sockets.sockets: live sockets *)
  channels : gmap string (gset string);  (* adapter: channel -> members *)
  closing : gset string                  (* disconnect handlers at their await *)
}.

Definition init : State := mkState ∅ [] ∅ ∅ ∅.

Abbreviation Handler := (State → result (State * list Delivery)).

(* ===================================================================== *)
(** ** The Socket.IO adapter *)
(* ===================================================================== *)

Definition members (ch : gmap string (gset string)) (r : string) : gset string :=
  default ∅ (ch !! r).

(** [socket.join(r)] *)
Definition join (s r : string) (ch : gmap string (gset string))
  : gmap string (gset string) :=
  <[r := {[s]} ∪ members ch r]> ch.

(** [socket.leave(r)] *)
Definition leave (s r : string) (ch : gmap string (gset string))
  : gmap string (gset string) :=
  <[r := members ch r ∖ {[s]}]> ch.

(** What the transport does when a socket closes: it leaves every channel. *)
Definition leaveAll (s : string) (ch : gmap string (gset string))
  : gmap string (gset string) :=
  (λ ms, ms ∖ {[s]}) <$> ch.

(** [socket.emit(ev)]: to the socket itself. *)
Definition socket_emit (s : string) (ev : Event) : list Delivery := [(s, ev)].

(** [socket.to(r).emit(ev)]: a broadcast to room [r] whose except-list is
    the room [socket.id].  The adapter reads the except-list as rooms, so
    the event goes to the members of channel [r] that are not members of the
    channel named by the sender's id: the sender itself is skipped only while
    it is still in that channel, and so is any socket that joined it. *)
Definition socket_to_emit (ch : gmap string (gset string)) (s r : string)
    (ev : Event) : list Delivery :=
  (λ t, (t, ev)) <$> elements (members ch r ∖ members ch s).

(** [io.to(r).emit(ev)]: to every member of channel [r]. *)
Definition io_to_emit (ch : gmap string (gset string)) (r : string)
    (ev : Event) : list Delivery :=
  (λ t, (t, ev)) <$> elements (members ch r).

(* ===================================================================== *)
(** ** The handlers of [io.on('connection', (socket) => ...)]

    [s] is [socket.id] of the socket whose handler runs. *)
(* ===================================================================== *)

Definition set_rooms (f : gmap string Room.t → gmap string Room.t)
    (st : State) : State :=
  mkState (f (rooms st)) (matchmakingQueue st) (sockets st) (channels st)
    (closing st).
Definition set_queue (f : list Entry.t → list Entry.t) (st : State) : State :=
  mkState (rooms st) (f (matchmakingQueue st)) (sockets st) (channels st)
    (closing st).
Definition set_sockets (f : gset string → gset string) (st : State) : State :=
  mkState (rooms st) (matchmakingQueue st) (f (sockets st)) (channels st)
    (closing st).
Definition set_channels
    (f : gmap string (gset string) → gmap string (gset string))
    (st : State) : State :=
  mkState (rooms st) (matchmakingQueue st) (sockets st) (f (channels st))
    (closing st).
Definition set_closing (f : gset string → gset string) (st : State) : State :=
  mkState (rooms st) (matchmakingQueue st) (sockets st) (channels st)
    (f (closing st)).

(** [rooms.has(roomId)] *)
Definition has (roomId : string) (st : State) : bool :=
  bool_decide (is_Some (rooms st !! roomId)).

(** A new connection: the transport registers the socket, which joins the
    channel named by its own id; the handler asks for the fingerprint. *)
Definition connection (s : string) : Handler := λ st,
  Ok (set_channels (join s s) (set_sockets (λ ss, {[s]} ∪ ss) st),
      socket_emit s RequestFingerprint).

(** [socket.on('createRoom', ...)], server.js 218-237 *)
Definition createRoom (s roomId : string) : Handler := λ st,
  if has roomId st then
    Ok (st, socket_emit s (ErrorMessage "Room already exists"))
  else
    let st1 := set_rooms <[roomId := Room.mk [s] s None None]> st in
    let st2 := set_channels (join s roomId) st1 in
    Ok (st2, socket_emit s (RoomCreated roomId)).

(** [socket.on('joinRoom', ...)], server.js 239-270 *)
Definition joinRoom (s roomId : string) : Handler := λ st,
  if negb (has roomId st) then
    Ok (st, socket_emit s (ErrorMessage "Room does not exist"))
  else
    room ← defined (rooms st !! roomId);
    if bool_decide (2 ≤ length (Room.players room))%nat then
      Ok (st, socket_emit s (ErrorMessage "Room is full"))
    else
      let room' :=
        Room.with_black (Some s)
          (Room.with_players (JSArray.push s (Room.players room)) room) in
      let st1 := set_rooms <[roomId := room']> st in
      let st2 := set_channels (join s roomId) st1 in
      Ok (st2,
          socket_emit s (RoomJoined roomId)
          ++ match Room.timeControl room' with
             | Some (String c rest) =>
                 socket_emit s (TimeControlSync (String c rest))
             | _ => []   (* null and the empty string are falsy *)
             end
          ++ socket_to_emit (channels st2) s roomId OpponentJoined).

(** The relays: [move] (272-285), [gameOver] (287-293), [rematchRequest],
    [rematchAccept], [rematchDecline] (303-319).  Each is one
    [socket.to(roomId).emit(...)] and touches no state. *)
Definition relay (ev : Event) (s roomId : string) : Handler := λ st,
  Ok (st, socket_to_emit (channels st) s roomId ev).

Definition move (s roomId : string) (payload : MovePayload) : Handler :=
  relay (OpponentMove payload) s roomId.
Definition gameOver (s roomId reason : string) : Handler :=
  relay (GameOverEv reason) s roomId.
Definition rematchRequest (s roomId : string) : Handler :=
  relay RematchRequestEv s roomId.
Definition rematchAccept (s roomId : string) : Handler :=
  relay RematchAccepted s roomId.
Definition rematchDecline (s roomId : string) : Handler :=
  relay RematchDeclined s roomId.

(** [socket.on('timeControlSet', ...)], server.js 295-301 *)
Definition timeControlSet (s roomId timeControl : string) : Handler := λ st,
  if has roomId st then
    room ← defined (rooms st !! roomId);
    Ok (set_rooms <[roomId := Room.with_timeControl (Some timeControl) room]> st, [])
  else Ok (st, []).

(** The match condition of the scan loop, server.js 334-337. *)
Definition compatible (timeControl : string) (ignoreTime : bool)
    (waiting : Entry.t) : bool :=
  let sameTime := bool_decide (Entry.timeControl waiting = timeControl) in
  let eitherIgnores := Entry.ignoreTime waiting || ignoreTime in
  sameTime || eitherIgnores.

(** The [for] loop of server.js 326-341: the first index whose entry is
    compatible, [-1] when there is none. *)
Definition matchedIndex (timeControl : string) (ignoreTime : bool)
    (queue : list Entry.t) : Z :=
  JSArray.findIndexFrom 0 (compatible timeControl ignoreTime) queue.

(** The id of a matched room, server.js 367:
    [crypto.randomBytes(3).toString('hex').toUpperCase()]. *)
Definition matchedRoomId (rnd : list Byte.byte) : string :=
  toUpperCase (toStringHex rnd).

(** The time control of the matched game, server.js 352-364. *)
Definition finalTimeControl (opponent : Entry.t) (timeControl : string)
    (ignoreTime : bool) : string :=
  if bool_decide (Entry.timeControl opponent = timeControl) then timeControl
  else if negb (Entry.ignoreTime opponent) && ignoreTime then Entry.timeControl opponent
  else if Entry.ignoreTime opponent && negb ignoreTime then timeControl
  else Entry.timeControl opponent.

(** [socket.on('findMatch', ...)], server.js 321-392; [rnd] is the buffer
    that [crypto.randomBytes(3)] returns. *)
Definition findMatch (s timeControl : string) (ignoreTime : bool)
    (rnd : list Byte.byte) : Handler := λ st,
  let i := matchedIndex timeControl ignoreTime (matchmakingQueue st) in
  if bool_decide (i ≠ -1) then
    opponent ← defined (JSArray.at_index (matchmakingQueue st) i);
    let st1 := set_queue (JSArray.splice1 i) st in
    let final := finalTimeControl opponent timeControl ignoreTime in
    let roomId := matchedRoomId rnd in
    let st2 :=
      set_rooms <[roomId := Room.mk [Entry.socketId opponent; s]
                              (Entry.socketId opponent) (Some s) (Some final)]> st1 in
    (* io.sockets.sockets.get(opponent.socketId)?.join(roomId) *)
    let st3 :=
      if bool_decide (Entry.socketId opponent ∈ sockets st2)
      then set_channels (join (Entry.socketId opponent) roomId) st2 else st2 in
    let st4 := set_channels (join s roomId) st3 in
    Ok (st4,
        io_to_emit (channels st4) (Entry.socketId opponent)
          (MatchFound roomId ColorWhite final)
        ++ socket_emit s (MatchFound roomId ColorBlack final))
  else
    Ok (set_queue (JSArray.push (Entry.mk s timeControl ignoreTime)) st,
        socket_emit s Searching).

(** Removal of the first queue entry of [s], as [cancelMatchmaking] and
    [disconnect] do it: [findIndex] then [splice] under [index > -1]. *)
Definition removeFromQueue (s : string) (queue : list Entry.t) : list Entry.t :=
  let index := JSArray.findIndex (λ p, bool_decide (Entry.socketId p = s)) queue in
  if bool_decide (index > -1) then JSArray.splice1 index queue else queue.

(** [socket.on('cancelMatchmaking', ...)], server.js 394-401 *)
Definition cancelMatchmaking (s : string) : Handler := λ st,
  Ok (set_queue (removeFromQueue s) st, []).

(** [socket.on('leaveRoom', ...)], server.js 403-421 *)
Definition leaveRoom (s roomId : string) : Handler := λ st,
  if has roomId st then
    room ← defined (rooms st !! roomId);
    let players' := filter (λ id, id ≠ s) (Room.players room) in
    if bool_decide (length players' = 0%nat) then
      Ok (set_channels (leave s roomId) (set_rooms (delete roomId) st), [])
    else
      Ok (set_channels (leave s roomId)
            (set_rooms <[roomId := Room.with_players players' room]> st),
          socket_to_emit (channels st) s roomId OpponentDisconnected)
  else
    Ok (set_channels (leave s roomId) st, []).

(** One turn of the [rooms.forEach] of [disconnect], server.js 444-456:
    what becomes of a room ([None]: deleted) ... *)
Definition cleanupRoom (s : string) (room : Room.t) : option Room.t :=
  if bool_decide (s ∈ Room.players room) then
    let players' := filter (λ id, id ≠ s) (Room.players room) in
    if bool_decide (length players' = 0%nat) then None
    else Some (Room.with_players players' room)
  else Some room.

(** ... and what it emits. *)
Definition cleanupNotice (ch : gmap string (gset string)) (s : string)
    (kv : string * Room.t) : list Delivery :=
  if bool_decide (s ∈ Room.players kv.2) then
    if bool_decide (length (filter (λ id, id ≠ s) (Room.players kv.2)) = 0%nat)
    then []
    else io_to_emit ch kv.1 OpponentDisconnected
  else [].

(** [socket.on('disconnect', ...)], server.js 423-435: the handler up to
    its [await].  By the time it runs the transport has removed the socket
    from every channel and from the table of live sockets. *)
Definition disconnectBegin (s : string) : Handler := λ st,
  let st0 := set_channels (leaveAll s) (set_sockets (λ ss, ss ∖ {[s]}) st) in
  let st1 := set_queue (removeFromQueue s) st0 in
  Ok (set_closing (λ cs, {[s]} ∪ cs) st1, []).

(** server.js 437-456: the handler from its [await] on. *)
Definition disconnectResume (s : string) : Handler := λ st,
  let st1 := set_closing (λ cs, cs ∖ {[s]}) st in
  Ok (set_rooms (omap (cleanupRoom s)) st1,
      map_to_list (rooms st) ≫= cleanupNotice (channels st) s).

(** The whole handler, when nothing else runs at its [await]. *)
Definition disconnect (s : string) : Handler := λ st,
  '(st1, out1) ← disconnectBegin s st;
  '(st2, out2) ← disconnectResume s st1;
  Ok (st2, out1 ++ out2).

(* ===================================================================== *)
(** ** Signals, runs and reachable states *)
(* ===================================================================== *)

Inductive Signal : Type :=
| Connection (s : string)
| CreateRoom (s roomId : string)
| JoinRoom (s roomId : string)
| Move (s roomId : string) (payload : MovePayload)
| GameOver (s roomId reason : string)
| TimeControlSet (s roomId timeControl : string)
| RematchRequest (s roomId : string)
| RematchAccept (s roomId : string)
| RematchDecline (s roomId : string)
| FindMatch (s timeControl : string) (ignoreTime : bool) (rnd : list Byte.byte)
| CancelMatchmaking (s : string)
| LeaveRoom (s roomId : string)
| Disconnect (s : string)
| DisconnectResume (s : string).

Definition sender (sig : Signal) : string :=
  match sig with
  | Connection s | CreateRoom s _ | JoinRoom s _ | Move s _ _ | GameOver s _ _
  | TimeControlSet s _ _ | RematchRequest s _ | RematchAccept s _
  | RematchDecline s _ | FindMatch s _ _ _ | CancelMatchmaking s
  | LeaveRoom s _ | Disconnect s | DisconnectResume s => s
  end.

Definition handle (sig : Signal) : Handler :=
  match sig with
  | Connection s => connection s
  | CreateRoom s roomId => createRoom s roomId
  | JoinRoom s roomId => joinRoom s roomId
  | Move s roomId payload => move s roomId payload
  | GameOver s roomId reason => gameOver s roomId reason
  | TimeControlSet s roomId tc => timeControlSet s roomId tc
  | RematchRequest s roomId => rematchRequest s roomId
  | RematchAccept s roomId => rematchAccept s roomId
  | RematchDecline s roomId => rematchDecline s roomId
  | FindMatch s tc ig rnd => findMatch s tc ig rnd
  | CancelMatchmaking s => cancelMatchmaking s
  | LeaveRoom s roomId => leaveRoom s roomId
  | Disconnect s => disconnectBegin s
  | DisconnectResume s => disconnectResume s
  end.

(** [s] occupies room [roomId]. *)
Definition occupies (st : State) (s roomId : string) : Prop :=
  ∃ room, rooms st !! roomId = Some room ∧ s ∈ Room.players room.

(** [s] has an entry in the queue. *)
Definition queued (st : State) (s : string) : Prop :=
  ∃ e, e ∈ matchmakingQueue st ∧ Entry.socketId e = s.

(** The id the transport gives a new socket is one the state has never
    seen: no live or closing socket, no queue entry and no room carries it. *)
Definition fresh (s : string) (st : State) : Prop :=
  (s ∉ sockets st) ∧ (s ∉ closing st)
  ∧ Forall (λ e, Entry.socketId e ≠ s) (matchmakingQueue st)
  ∧ map_Forall (λ _ room, s ∉ Room.players room) (rooms st).

(** When a signal can arrive: a connection brings a fresh id; a suspended
    [disconnect] resumes; every other signal comes from a live socket;
    [randomBytes(3)] yields three bytes. *)
Definition enabled (sig : Signal) (st : State) : Prop :=
  match sig with
  | Connection s => fresh s st
  | FindMatch s _ _ rnd => s ∈ sockets st ∧ length rnd = 3%nat
  | DisconnectResume s => s ∈ closing st
  | _ => sender sig ∈ sockets st
  end.

#[global] Instance fresh_dec s st : Decision (fresh s st).
Proof. unfold fresh. apply _. Defined.

#[global] Instance enabled_dec sig st : Decision (enabled sig st).
Proof. destruct sig; simpl; apply _. Defined.

Inductive reachable : State → Prop :=
| reachable_init : reachable init
| reachable_step st sig st' out :
    reachable st → enabled sig st → handle sig st = Ok (st', out) →
    reachable st'.

(** Running a list of signals, each checked to be enabled. *)
Fixpoint run (sigs : list Signal) (st : State) : option State :=
  match sigs with
  | [] => Some st
  | sig :: rest =>
      if bool_decide (enabled sig st) then
        match handle sig st with
        | Ok (st', _) => run rest st'
        | Throw _ => None
        end
      else None
  end.

(** *** Predicates on states *)

(** No room lists more than two occupants. *)
Definition players_bounded (st : State) : Prop :=
  ∀ roomId room, rooms st !! roomId = Some room →
    (length (Room.players room) ≤ 2)%nat.

(** Every occupant whose socket is live has joined the room's channel. *)
Definition players_joined (st : State) : Prop :=
  ∀ roomId room p, rooms st !! roomId = Some room → p ∈ Room.players room →
    p ∈ sockets st → p ∈ members (channels st) roomId.

(** Any two entries at different positions of the queue are mutually
    incompatible: different time controls, neither ignoring. *)
Definition queue_incompatible (queue : list Entry.t) : Prop :=
  ∀ i j e1 e2, i ≠ j → queue !! i = Some e1 → queue !! j = Some e2 →
    Entry.timeControl e1 ≠ Entry.timeControl e2
    ∧ Entry.ignoreTime e1 = false ∧ Entry.ignoreTime e2 = false.

(** The relayed in-game signals, with the room they name and the event
    they forward. *)
Definition relayed (sig : Signal) : option (string * Event) :=
  match sig with
  | Move _ roomId payload => Some (roomId, OpponentMove payload)
  | GameOver _ roomId reason => Some (roomId, GameOverEv reason)
  | RematchRequest _ roomId => Some (roomId, RematchRequestEv)
  | RematchAccept _ roomId => Some (roomId, RematchAccepted)
  | RematchDecline _ roomId => Some (roomId, RematchDeclined)
  | _ => None
  end.

(** *** Scenarios

    Concrete runs from the initial state, used to evaluate the handlers.
    Socket ids are short names here; a matched room takes its id from the
    three random bytes given with the [findMatch]. *)

Definition payload0 : MovePayload :=
  Build_MovePayload "e2" "e4" "normal" "300" "300" "1".

(** [randomBytes(3)] results: hex [abc123] and [000001]. *)
Definition bytes_abc123 : list Byte.byte := [xab; xc1; x23].
Definition bytes_000001 : list Byte.byte := [x00; x00; x01].

Definition after (sigs : list Signal) : State := default init (run sigs init).

(** A creates R1, B joins it, C connects and stays outside. *)
Definition two_in_room : list Signal :=
  [Connection "A"; CreateRoom "A" "R1"; Connection "B"; JoinRoom "B" "R1";
   Connection "C"].

(** A asks for a 5+0 game, then for a 3+0 game, never ignoring time. *)
Definition double_entry : list Signal :=
  [Connection "A"; FindMatch "A" "5+0" false bytes_000001;
   FindMatch "A" "3+0" false bytes_000001].

(** A and B are matched into the room ABC123; C waits for a 3+0 game;
    D connects. *)
Definition before_collision : list Signal :=
  [Connection "A"; FindMatch "A" "5+0" false bytes_000001;
   Connection "B"; FindMatch "B" "5+0" false bytes_abc123;
   Connection "C"; FindMatch "C" "3+0" false bytes_000001;
   Connection "D"].

(** A queues twice and closes, its [disconnect] handler running to the
    end; B is then matched with the entry that A left behind. *)
Definition ghost_match : list Signal :=
  [Connection "A"; FindMatch "A" "1+0" false bytes_000001;
   FindMatch "A" "2+0" false bytes_000001;
   Disconnect "A"; DisconnectResume "A";
   Connection "B"; FindMatch "B" "2+0" false bytes_abc123].

(** B waits for 5+0, then A waits for 3+0 behind it; C connects. *)
Definition behind_other : list Signal :=
  [Connection "B"; FindMatch "B" "5+0" false bytes_000001;
   Connection "A"; FindMatch "A" "3+0" false bytes_000001;
   Connection "C"].

(** A holds R1 and B holds R2. *)
Definition two_rooms : list Signal :=
  [Connection "A"; CreateRoom "A" "R1"; Connection "B"; CreateRoom "B" "R2"].

(** A holds R1; B has connected. *)
Definition one_in_room : list Signal :=
  [Connection "A"; CreateRoom "A" "R1"; Connection "B"].

(** A alone waits, with the given preference. *)
Definition one_waiting (timeControl : string) (ignoreTime : bool)
  : list Signal :=
  [Connection "A"; FindMatch "A" timeControl ignoreTime bytes_000001;
   Connection "B"].


(** A and B are in R1; B then sends [leaveRoom] naming its own socket id,
    which makes it leave the channel of that name. *)
Definition off_own_channel : list Signal :=
  [Connection "A"; CreateRoom "A" "R1"; Connection "B"; JoinRoom "B" "R1";
   LeaveRoom "B" "B"].

(** A and B are in R1; A then creates a room whose id is the socket id of
    B, and so joins the channel of that name. *)
Definition in_sender_channel : list Signal :=
  [Connection "A"; CreateRoom "A" "R1"; Connection "B"; JoinRoom "B" "R1";
   CreateRoom "A" "B"].

(** *** Vocabulary for the frame and format properties *)

(** The room id a signal can write to: the one it names, or the id drawn
    for a matched room.  The other signals name no room. *)
Definition target (sig : Signal) : option string :=
  match sig with
  | CreateRoom _ roomId | JoinRoom _ roomId | TimeControlSet _ roomId _
  | LeaveRoom _ roomId => Some roomId
  | FindMatch _ _ _ rnd => Some (matchedRoomId rnd)
  | _ => None
  end.

(** No live room is empty. *)
Definition players_nonempty (st : State) : Prop :=
  ∀ roomId room, rooms st !! roomId = Some room → Room.players room ≠ [].

(** Only live sockets are members of a channel. *)
Definition members_live (st : State) : Prop :=
  ∀ r t, t ∈ members (channels st) r → t ∈ sockets st.

(** The queue entries of [s], in queue order. *)
Definition entriesOf (s : string) (queue : list Entry.t) : list Entry.t :=
  filter (λ e, Entry.socketId e = s) queue.

(** The queue entries of the connections other than [s], in queue order. *)
Definition entriesOfOthers (s : string) (queue : list Entry.t) : list Entry.t :=
  filter (λ e, Entry.socketId e ≠ s) queue.

(** A digit or a capital A-F. *)
Definition isUpperHex (c : ascii) : bool :=
  let n := N_of_ascii c in
  ((48 <=? n) && (n <=? 57) || (65 <=? n) && (n <=? 70))%N.

Fixpoint allChars (p : ascii → bool) (s : string) : bool :=
  match s with
  | EmptyString => true
  | String c rest => p c && allChars p rest
  end.

(** Reading an upper-case hex string back into bytes; the inverse of
    [matchedRoomId], used to show that it loses nothing. *)
Definition hexValue (c : ascii) : N :=
  let n := N_of_ascii c in
  if (n <=? 57)%N then (n - 48)%N else (n - 55)%N.

Fixpoint fromUpperHex (s : string) : list Byte.byte :=
  match s with
  | String hi (String lo rest) =>
      default x00 (Byte.of_N (hexValue hi * 16 + hexValue lo)) :: fromUpperHex rest
  | _ => []
  end.

(** *** The visitor counters

    The [analytics] object of server.js 28-33, the statements of the
    [fingerprint] (187-216) and [disconnect] (438) handlers that update
    it, and the two assignments of [loadAnalytics] (51-76).  Each
    definition is one stretch of code that runs without an [await] in it;
    what the database answered is an argument.

    The counters are JavaScript numbers.  The model follows a counter while
    it is a safe integer (magnitude at most [2^53 - 1]), where adding and
    subtracting one are exact; a statement that would read or produce a
    number outside that range has no result in the model ([None]). *)
Module Analytics.
Record t : Type := mk {
  uniqueVisitors : Z;
  totalVisits : Z;
  peakConcurrent : Z;
  currentOnline : Z
}.

(** server.js 28-33 *)
Definition initial : t := mk 0 0 0 0.

(** [Number.MAX_SAFE_INTEGER], [2^53 - 1] *)
Definition maxSafe : Z := 9007199254740991.

Definition isSafe (x : Z) : bool := bool_decide (- maxSafe ≤ x ≤ maxSafe).

Definition safely (x : Z) : option Z := if isSafe x then Some x else None.

(** [x + 1] and [x - 1], exact on the safe integers *)
Definition incr (x : Z) : option Z := safely x ≫= λ x, safely (x + 1).
Definition decr (x : Z) : option Z := safely x ≫= λ x, safely (x - 1).

(** server.js 194-199: [if (isUnique) { uniqueVisitors++; totalVisits++ }] *)
Definition countVisitor (isUnique : bool) (a : t) : option t :=
  if isUnique then
    unique ← incr (uniqueVisitors a);
    total ← incr (totalVisits a);
    Some (mk unique total (peakConcurrent a) (currentOnline a))
  else Some a.

(** server.js 201-208: [currentOnline++], then the peak follows it up. *)
Definition countOnline (a : t) : option t :=
  online ← incr (currentOnline a);
  peak ← safely (peakConcurrent a);
  Some (if bool_decide (online > peak)
        then mk (uniqueVisitors a) (totalVisits a) online online
        else mk (uniqueVisitors a) (totalVisits a) peak online).

(** server.js 438: [currentOnline = Math.max(0, currentOnline - 1)] *)
Definition countOffline (a : t) : option t :=
  less ← decr (currentOnline a);
  Some (mk (uniqueVisitors a) (totalVisits a) (peakConcurrent a)
          (Z.max 0 less)).

(** The stored counters that [findOne] answers: each field holds an
    integer or is missing ([None]), as in a document that [saveAnalytics]
    wrote. *)
Record Stats : Type := mkStats {
  storedUnique : option Z;
  storedTotal : option Z;
  storedPeak : option Z
}.

(** [v || 0] on a number or a missing field *)
Definition orZero (v : option Z) : option Z := safely (default 0 v).

(** server.js 59-64: [if (stats) { ... = stats.... || 0 }]; [stats] is
    [None] when there is no stored document. *)
Definition loadStats (stats : option Stats) (a : t) : option t :=
  match stats with
  | Some stored =>
      unique ← orZero (storedUnique stored);
      total ← orZero (storedTotal stored);
      peak ← orZero (storedPeak stored);
      Some (mk unique total peak (currentOnline a))
  | None => Some a
  end.

(** server.js 68-71: [analytics.currentOnline = activeSessions], the
    number of sessions that [countDocuments] answered. *)
Definition loadOnline (activeSessions : Z) (a : t) : option t :=
  online ← safely activeSessions;
  Some (mk (uniqueVisitors a) (totalVisits a) (peakConcurrent a) online).

(** The updates, in any interleaving the [await]s allow. *)
Inductive update : Type :=
| Visitor (isUnique : bool)
| Online
| Offline
| LoadStats (stats : option Stats)
| LoadOnline (activeSessions : Z).

Definition apply (u : update) : t → option t :=
  match u with
  | Visitor isUnique => countVisitor isUnique
  | Online => countOnline
  | Offline => countOffline
  | LoadStats stats => loadStats stats
  | LoadOnline activeSessions => loadOnline activeSessions
  end.

Fixpoint applyAll (us : list update) (a : t) : option t :=
  match us with
  | [] => Some a
  | u :: rest => apply u a ≫= applyAll rest
  end.

(** How many of the updates satisfy [p]. *)
Fixpoint count (p : update → bool) (us : list update) : Z :=
  match us with
  | [] => 0
  | u :: rest => (if p u then 1 else 0) + count p rest
  end.

Definition isUniqueVisit (u : update) : bool :=
  match u with Visitor true => true | _ => false end.
Definition isOnline (u : update) : bool :=
  match u with Online => true | _ => false end.
Definition isOffline (u : update) : bool :=
  match u with Offline => true | _ => false end.
Definition isLoad (u : update) : bool :=
  match u with LoadStats _ | LoadOnline _ => true | _ => false end.

(** The counters of [a] are safe integers and stay so across [us]:
    the online counter lies between zero and the peak, and each counter
    that [us] raises has that much room below [maxSafe]. *)
Definition roomFor (us : list update) (a : t) : Prop :=
  0 ≤ currentOnline a ≤ peakConcurrent a
  ∧ peakConcurrent a + count isOnline us ≤ maxSafe
  ∧ - maxSafe ≤ uniqueVisitors a
  ∧ uniqueVisitors a + count isUniqueVisit us ≤ maxSafe
  ∧ - maxSafe ≤ totalVisits a
  ∧ totalVisits a + count isUniqueVisit us ≤ maxSafe.
End Analytics.

(* ===================================================================== *)
(** ** Facts about the helpers *)
(* ===================================================================== *)

Section ArrayFacts.
Context {A : Type}.
Implicit Types (p : A → bool) (arr : list A) (from : Z) (k : nat).

Lemma findIndexFrom_first p arr : ∀ from k x,
  arr !! k = Some x → p x = true →
  (∀ j y, (j < k)%nat → arr !! j = Some y → p y = false) →
  JSArray.findIndexFrom from p arr = from + Z.of_nat k.
Proof.
  induction arr as [|a arr IH]; intros from k x Hk Hp Hlt; [done|].
  destruct k as [|k]; simpl in *.
  - injection Hk as ->. rewrite Hp. lia.
  - rewrite (Hlt 0%nat a) by (lia || done).
    rewrite (IH (from + 1) k x Hk Hp); [lia|].
    intros j y Hj Hy. apply (Hlt (S j) y); [lia|done].
Qed.

Lemma findIndexFrom_none p arr : ∀ from,
  Forall (λ x, p x = false) arr → JSArray.findIndexFrom from p arr = -1.
Proof.
  induction arr as [|a arr IH]; intros from Hall; [done|].
  inversion Hall as [|? ? Ha Hrest]; subst. simpl. rewrite Ha. by apply IH.
Qed.

Lemma findIndexFrom_cases p arr : ∀ from, 0 ≤ from →
  (JSArray.findIndexFrom from p arr = -1 ∧ Forall (λ x, p x = false) arr)
  ∨ (∃ k x, JSArray.findIndexFrom from p arr = from + Z.of_nat k
            ∧ arr !! k = Some x ∧ p x = true
            ∧ ∀ j y, (j < k)%nat → arr !! j = Some y → p y = false).
Proof.
  induction arr as [|a arr IH]; intros from Hfrom; [left; by split|].
  simpl. destruct (p a) eqn:Ha.
  - right. exists 0%nat, a. split; [lia|]. do 2 (split; [done|]). intros; lia.
  - destruct (IH (from + 1) ltac:(lia)) as [[-> Hall]|(k & x & -> & Hk & Hp & Hlt)].
    + left. split; [done|]. by constructor.
    + right. exists (S k), x. split; [lia|]. do 2 (split; [done|]).
      intros [|j] y Hj Hy; simpl in Hy; [congruence|].
      apply (Hlt j y); [lia|done].
Qed.

Lemma at_index_of_nat arr k : JSArray.at_index arr (Z.of_nat k) = arr !! k.
Proof.
  unfold JSArray.at_index. rewrite bool_decide_eq_true_2 by lia.
  by rewrite Nat2Z.id.
Qed.

Lemma splice1_of_nat arr k : JSArray.splice1 (Z.of_nat k) arr = delete k arr.
Proof. unfold JSArray.splice1. by rewrite Nat2Z.id. Qed.
End ArrayFacts.

Section AdapterFacts.
Implicit Types (ch : gmap string (gset string)) (s t r : string).

Lemma members_join ch s r r' :
  members (join s r ch) r' =
    if decide (r = r') then {[s]} ∪ members ch r' else members ch r'.
Proof.
  unfold join, members at 1. rewrite lookup_insert.
  destruct (decide (r = r')) as [->|]; done.
Qed.

Lemma members_leave ch s r r' :
  members (leave s r ch) r' =
    if decide (r = r') then members ch r' ∖ {[s]} else members ch r'.
Proof.
  unfold leave, members at 1. rewrite lookup_insert.
  destruct (decide (r = r')) as [->|]; done.
Qed.

Lemma members_leaveAll ch s r : members (leaveAll s ch) r = members ch r ∖ {[s]}.
Proof.
  unfold leaveAll, members. rewrite lookup_fmap.
  destruct (ch !! r); simpl; [done|]. set_solver.
Qed.

Lemma elem_of_members_join ch s r r' t :
  t ∈ members (join s r ch) r' ↔ (r = r' ∧ t = s) ∨ t ∈ members ch r'.
Proof. rewrite members_join. destruct (decide (r = r')); set_solver. Qed.

Lemma elem_of_socket_to_emit ch s r ev t ev' :
  (t, ev') ∈ socket_to_emit ch s r ev
  ↔ ev' = ev ∧ t ∈ members ch r ∧ t ∉ members ch s.
Proof.
  unfold socket_to_emit. rewrite list_elem_of_fmap. split.
  - intros (u & [= -> ->] & Hu). apply elem_of_elements in Hu. set_solver.
  - intros (-> & Ht & Hne). exists t. split; [done|].
    apply elem_of_elements. set_solver.
Qed.

Lemma elem_of_io_to_emit ch r ev t ev' :
  (t, ev') ∈ io_to_emit ch r ev ↔ ev' = ev ∧ t ∈ members ch r.
Proof.
  unfold io_to_emit. rewrite list_elem_of_fmap. split.
  - intros (u & [= -> ->] & Hu). by apply elem_of_elements in Hu.
  - intros (-> & Ht). exists t. split; [done|]. by apply elem_of_elements.
Qed.
End AdapterFacts.

(** [players.filter(id => id !== s)] shortens a list that holds [s]. *)
Lemma length_filter_out (s : string) (l : list string) :
  s ∈ l → (length (filter (λ id, id ≠ s) l) < length l)%nat.
Proof.
  induction l as [|x l IH]; intros Hin; [by apply elem_of_nil in Hin|].
  rewrite filter_cons. destruct (decide (x ≠ s)) as [Hne|Heq]; simpl.
  - apply elem_of_cons in Hin as [->|Hin]; [done|].
    specialize (IH Hin). lia.
  - pose proof (length_filter (λ id, id ≠ s) l). lia.
Qed.

Lemma has_true roomId st : has roomId st = true ↔ is_Some (rooms st !! roomId).
Proof. unfold has. by rewrite bool_decide_eq_true. Qed.

Lemma has_false roomId st : has roomId st = false ↔ rooms st !! roomId = None.
Proof.
  unfold has. rewrite bool_decide_eq_false, <- eq_None_not_Some. done.
Qed.

Lemma compatible_true tc ig e :
  compatible tc ig e = true ↔
    Entry.timeControl e = tc ∨ Entry.ignoreTime e = true ∨ ig = true.
Proof.
  unfold compatible.
  rewrite !orb_true_iff, bool_decide_eq_true. tauto.
Qed.

Lemma compatible_false tc ig e :
  compatible tc ig e = false ↔
    Entry.timeControl e ≠ tc ∧ Entry.ignoreTime e = false ∧ ig = false.
Proof.
  unfold compatible.
  rewrite !orb_false_iff, bool_decide_eq_false. tauto.
Qed.

(* ===================================================================== *)
(** ** Invariants of the reachable states *)
(* ===================================================================== *)

Ltac unfold_handlers H :=
  unfold handle, connection, createRoom, joinRoom, move, gameOver,
    rematchRequest, rematchAccept, rematchDecline, relay, timeControlSet,
    findMatch, cancelMatchmaking, leaveRoom, disconnectBegin,
    disconnectResume, defined in H;
  simpl in H.

(** Splits a run of a handler into its branches. *)
Ltac step_cases H :=
  unfold_handlers H;
  repeat (case_match; simpl in H);
  simplify_eq.

Lemma players_bounded_step st sig st' out :
  players_bounded st → handle sig st = Ok (st', out) → players_bounded st'.
Proof.
  intros Hinv H. destruct sig; step_cases H.
  all: intros rid room Hrid; simpl in *.
  all: try (by eauto).
  all: try (apply lookup_insert_Some in Hrid as [[? ?]|[? ?]]; simplify_eq; simpl;
            [|by eauto]).
  all: try (apply lookup_delete_Some in Hrid as [? ?]; by eauto).
  all: try lia.
  all: try by eauto.
  all: try match goal with
       | H : bool_decide (2 ≤ length _)%nat = false |- _ =>
           apply bool_decide_eq_false in H; unfold JSArray.push;
           rewrite length_app; simpl; lia
       end.
  - etrans; [apply length_filter|]. eauto.
  - rewrite lookup_omap in Hrid.
    destruct (rooms st !! rid) as [room0|] eqn:Hroom0; simpl in Hrid; [|done].
    unfold cleanupRoom in Hrid. repeat case_match; simplify_eq; simpl; eauto.
    etrans; [apply length_filter|]. eauto.
Qed.

Lemma players_joined_step st sig st' out :
  players_joined st → enabled sig st → handle sig st = Ok (st', out) →
  players_joined st'.
Proof.
  intros Hinv Hen H. destruct sig; step_cases H.
  all: intros rid room p Hrid Hp Hlive; simpl in *.
  all: try (by eauto).
  all: try (apply lookup_insert_Some in Hrid as [[? ?]|[? ?]];
            simplify_eq; simpl in *).
  all: try (apply lookup_delete_Some in Hrid as [? ?]).
  all: rewrite ?elem_of_members_join, ?members_leave, ?members_leaveAll.
  all: try (by eauto).
  all: try match goal with
       | Hp : _ ∈ JSArray.push _ _ |- _ =>
           unfold JSArray.push in Hp;
           apply elem_of_app in Hp as [Hp|Hp%list_elem_of_singleton];
           by eauto
       end.
  - (* connection: the new id occupies no room *)
    destruct Hen as (Hs & _ & _ & Hrooms).
    right. apply (Hinv rid room p); [done..|].
    apply elem_of_union in Hlive as [Hps%elem_of_singleton|]; [subst|done].
    by destruct (Hrooms rid room Hrid).
  - left. split; [done|]. by apply list_elem_of_singleton in Hp.
  - set_solver.
  - apply bool_decide_eq_false in H2. set_solver.
  - rewrite decide_False by done. eauto.
  - rewrite decide_True by done.
    apply list_elem_of_filter in Hp as [Hne Hp]. apply elem_of_difference.
    split; [eauto|]. set_solver.
  - rewrite decide_False by done. eauto.
  - apply has_false in H0. destruct (decide (roomId = rid)); [congruence|eauto].
  - (* disconnect, first part: the socket is live no more *)
    apply elem_of_difference in Hlive as [Hlive Hne].
    apply elem_of_difference. split; [eauto|done].
  - (* disconnect, second part *)
    rewrite lookup_omap in Hrid.
    destruct (rooms st !! rid) as [room0|] eqn:Hroom0; simpl in Hrid; [|done].
    unfold cleanupRoom in Hrid. repeat case_match; simplify_eq; simpl in *; eauto.
    apply list_elem_of_filter in Hp as [_ Hp]. eauto.
Qed.

Lemma lookup_delete_shift {A} (l : list A) k i x :
  delete k l !! i = Some x →
  ∃ i', l !! i' = Some x ∧ (i' = if decide (i < k)%nat then i else S i).
Proof.
  intros H. destruct (decide (i < k)%nat).
  - rewrite list_lookup_delete_lt in H by done. eauto.
  - rewrite list_lookup_delete_ge in H by lia. eauto.
Qed.

Lemma queue_incompatible_delete k queue :
  queue_incompatible queue → queue_incompatible (delete k queue).
Proof.
  intros Hq i j e1 e2 Hij H1 H2.
  apply lookup_delete_shift in H1 as (i' & H1 & Hi').
  apply lookup_delete_shift in H2 as (j' & H2 & Hj').
  apply (Hq i' j'); [|done..].
  repeat case_decide; lia.
Qed.

Lemma queue_incompatible_push s tc ig queue :
  queue_incompatible queue →
  Forall (λ e, compatible tc ig e = false) queue →
  queue_incompatible (JSArray.push (Entry.mk s tc ig) queue).
Proof.
  intros Hq Hall i j e1 e2 Hij H1 H2. unfold JSArray.push in *.
  apply lookup_snoc_Some in H1 as [[Hi H1]|[Hi <-]];
    apply lookup_snoc_Some in H2 as [[Hj H2]|[Hj <-]]; simpl.
  - by apply (Hq i j).
  - eapply Forall_lookup_1 in Hall; [|exact H1].
    apply compatible_false in Hall. naive_solver.
  - eapply Forall_lookup_1 in Hall; [|exact H2].
    apply compatible_false in Hall. naive_solver.
  - lia.
Qed.

Lemma queue_incompatible_remove s queue :
  queue_incompatible queue → queue_incompatible (removeFromQueue s queue).
Proof.
  intros Hq. unfold removeFromQueue. case_bool_decide; [|done].
  by apply queue_incompatible_delete.
Qed.

Lemma matchedIndex_none tc ig queue :
  matchedIndex tc ig queue = -1 →
  Forall (λ e, compatible tc ig e = false) queue.
Proof.
  unfold matchedIndex. intros H.
  destruct (findIndexFrom_cases (compatible tc ig) queue 0 ltac:(lia))
    as [[_ Hall]|(k & x & Hk & _)]; [done|lia].
Qed.

Lemma queue_incompatible_step st sig st' out :
  queue_incompatible (matchmakingQueue st) → handle sig st = Ok (st', out) →
  queue_incompatible (matchmakingQueue st').
Proof.
  intros Hinv H. destruct sig; step_cases H; simpl; try done.
  - by apply queue_incompatible_delete.
  - by apply queue_incompatible_delete.
  - apply queue_incompatible_push; [done|]. apply matchedIndex_none.
    apply bool_decide_eq_false in H0. by apply dec_stable.
  - by apply queue_incompatible_remove.
  - by apply queue_incompatible_remove.
Qed.

Lemma reachable_invariant st :
  reachable st →
  players_bounded st ∧ players_joined st
  ∧ queue_incompatible (matchmakingQueue st).
Proof.
  induction 1 as [|st sig st' out _ (Hb & Hj & Hq) Hen Hstep].
  - split; [|split].
    + intros rid room Hrid. simpl in Hrid. by rewrite lookup_empty in Hrid.
    + intros rid room p Hrid. simpl in Hrid. by rewrite lookup_empty in Hrid.
    + intros i j e1 e2 _ Hi. by destruct i.
  - split; [|split].
    + by eapply players_bounded_step.
    + by eapply players_joined_step.
    + by eapply queue_incompatible_step.
Qed.

Lemma run_reachable sigs : ∀ st st',
  reachable st → run sigs st = Some st' → reachable st'.
Proof.
  induction sigs as [|sig sigs IH]; intros st st' Hst Hrun; simpl in Hrun.
  - by injection Hrun as <-.
  - case_bool_decide as Hen; [|done].
    destruct (handle sig st) as [[st1 out]|] eqn:Hh; [|done].
    eapply IH; [|exact Hrun]. by eapply reachable_step.
Qed.

(* ===================================================================== *)
(** ** What single handlers do *)
(* ===================================================================== *)

(** A [findMatch] whose scan stops at index [k]. *)
Lemma findMatch_selected s tc ig rnd st k opponent :
  matchmakingQueue st !! k = Some opponent →
  matchedIndex tc ig (matchmakingQueue st) = Z.of_nat k →
  ∃ st' out,
    findMatch s tc ig rnd st = Ok (st', out)
    ∧ matchmakingQueue st' = delete k (matchmakingQueue st)
    ∧ rooms st' =
        <[matchedRoomId rnd :=
            Room.mk [Entry.socketId opponent; s] (Entry.socketId opponent)
              (Some s) (Some (finalTimeControl opponent tc ig))]> (rooms st)
    ∧ sockets st' = sockets st
    ∧ (∀ t ev, (t, ev) ∈ out →
         ∃ color, ev = MatchFound (matchedRoomId rnd) color
                         (finalTimeControl opponent tc ig))
    ∧ (s, MatchFound (matchedRoomId rnd) ColorBlack
            (finalTimeControl opponent tc ig)) ∈ out.
Proof.
  intros Hk Hi. unfold findMatch. rewrite Hi.
  rewrite bool_decide_eq_true_2 by lia.
  rewrite at_index_of_nat, Hk. simpl.
  eexists _, _. split; [done|].
  split; [case_bool_decide; simpl; by rewrite splice1_of_nat|].
  split; [by case_bool_decide|]. split; [by case_bool_decide|]. split.
  - intros t ev [Hin|Hin]%elem_of_app.
    + apply elem_of_io_to_emit in Hin as [-> _]. by eexists.
    + apply list_elem_of_singleton in Hin as [= _ ->]. by eexists.
  - apply elem_of_app. right. apply list_elem_of_singleton. done.
Qed.

(** The entry the scan selects is compatible, and the first such. *)
Lemma matchedIndex_selected tc ig queue opponent :
  JSArray.at_index queue (matchedIndex tc ig queue) = Some opponent →
  ∃ k, matchedIndex tc ig queue = Z.of_nat k ∧ queue !! k = Some opponent
       ∧ compatible tc ig opponent = true
       ∧ ∀ j e, (j < k)%nat → queue !! j = Some e → compatible tc ig e = false.
Proof.
  unfold matchedIndex. intros Hat.
  destruct (findIndexFrom_cases (compatible tc ig) queue 0 ltac:(lia))
    as [[Hnone _]|(k & x & Hk & Hx & Hp & Hlt)].
  - rewrite Hnone in Hat. done.
  - rewrite Hk, Z.add_0_l in *. rewrite at_index_of_nat in Hat.
    exists k. by simplify_eq.
Qed.




Lemma NoDup_ids_delete k (queue : list Entry.t) :
  NoDup (Entry.socketId <$> queue) → NoDup (Entry.socketId <$> delete k queue).
Proof.
  rewrite list_fmap_delete. intros Hq.
  eapply sublist_NoDup; [exact Hq|apply sublist_delete].
Qed.

Lemma NoDup_ids_remove s (queue : list Entry.t) :
  NoDup (Entry.socketId <$> queue) →
  NoDup (Entry.socketId <$> removeFromQueue s queue).
Proof.
  intros Hq. unfold removeFromQueue. case_bool_decide; [|done].
  by apply NoDup_ids_delete.
Qed.

(** Entries stay one per connection across every signal but a [findMatch]
    from a connection that already waits. *)
Lemma queue_unique_step st sig st' out :
  NoDup (Entry.socketId <$> matchmakingQueue st) →
  (∀ s tc ig rnd, sig = FindMatch s tc ig rnd → ¬ queued st s) →
  handle sig st = Ok (st', out) →
  NoDup (Entry.socketId <$> matchmakingQueue st').
Proof.
  intros Hinv Hguard H. destruct sig; step_cases H; simpl; try done.
  - by apply NoDup_ids_delete.
  - by apply NoDup_ids_delete.
  - unfold JSArray.push. rewrite fmap_app. apply NoDup_app.
    split; [done|]. split; [|apply NoDup_singleton].
    intros x Hx Hx'. apply list_elem_of_singleton in Hx'. simpl in Hx'. subst x.
    apply list_elem_of_fmap in Hx as (e & He & Hin).
    apply (Hguard s timeControl ignoreTime rnd eq_refl). by exists e.
  - by apply NoDup_ids_remove.
  - by apply NoDup_ids_remove.
Qed.







Lemma disconnect_effect s st :
  ∃ st' out,
    disconnect s st = Ok (st', out)
    ∧ matchmakingQueue st' = removeFromQueue s (matchmakingQueue st)
    ∧ rooms st' = omap (cleanupRoom s) (rooms st)
    ∧ sockets st' = sockets st ∖ {[s]}
    ∧ channels st' = leaveAll s (channels st)
    ∧ closing st' = ({[s]} ∪ closing st) ∖ {[s]}
    ∧ out = map_to_list (rooms st)
              ≫= cleanupNotice (leaveAll s (channels st)) s.
Proof. by eexists _, _. Qed.






(** No handler throws, whatever the state. *)
Lemma handle_total sig st : is_Ok (handle sig st).
Proof.
  unfold is_Ok.
  destruct sig; simpl;
    unfold connection, createRoom, joinRoom, move, gameOver, rematchRequest,
      rematchAccept, rematchDecline, relay, timeControlSet, cancelMatchmaking,
      leaveRoom, disconnectBegin, disconnectResume; simpl; eauto.
  - destruct (has roomId st); eauto.
  - destruct (has roomId st) eqn:Hhas; simpl; [|eauto].
    apply has_true in Hhas as [room ->]. simpl.
    case_bool_decide; eauto.
  - destruct (has roomId st) eqn:Hhas; simpl; [|eauto].
    apply has_true in Hhas as [room ->]. simpl. eauto.
  - destruct (findIndexFrom_cases (compatible timeControl ignoreTime)
                (matchmakingQueue st) 0 ltac:(lia))
      as [[Hnone _]|(k & x & Hk & Hx & _)].
    + unfold findMatch, matchedIndex. rewrite Hnone. simpl. eauto.
    + rewrite Z.add_0_l in Hk.
      destruct (findMatch_selected s timeControl ignoreTime rnd st k x Hx Hk)
        as (st' & out & -> & _). eauto.
  - destruct (has roomId st) eqn:Hhas; simpl; [|eauto].
    apply has_true in Hhas as [room ->]. simpl.
    case_bool_decide; eauto.
Qed.

(** A scenario is a run of enabled signals, so its state is reachable. *)
Lemma after_reachable sigs st : run sigs init = Some st → reachable (after sigs).
Proof.
  intros Hrun. unfold after. rewrite Hrun. simpl.
  eapply run_reachable; [apply reachable_init|exact Hrun].
Qed.

(* ===================================================================== *)
(** ** Event relay *)
(* ===================================================================== *)

(** C1, as the code has it.  A relayed signal ([move], [gameOver],
    [rematchRequest], [rematchAccept], [rematchDecline]) is forwarded with
    no membership check: the state is unchanged and the event goes to
    exactly the sockets that have joined the channel named by [roomId] and
    have not joined the channel named by the sender's id, whether or not the
    sender occupies that room and whether or not such a room exists.  In a
    reachable state every occupant of the room whose socket is live and is
    not in the channel named by the sender's id is among the receivers.
    When that channel holds the sender alone (as it does from connection
    until somebody joins or leaves it), the receivers are the members of
    the room's channel other than the sender. *)
Theorem relay_delivery (sig : Signal) (roomId : string) (ev : Event)
    (st : State) :
  relayed sig = Some (roomId, ev) →
  ∃ out, handle sig st = Ok (st, out)
    ∧ (∀ t ev', (t, ev') ∈ out ↔
         ev' = ev ∧ t ∈ members (channels st) roomId
         ∧ t ∉ members (channels st) (sender sig))
    ∧ (reachable st → ∀ p, occupies st p roomId → p ∈ sockets st →
         p ∉ members (channels st) (sender sig) → (p, ev) ∈ out)
    ∧ (members (channels st) (sender sig) = {[sender sig]} →
         ∀ t ev', (t, ev') ∈ out ↔
           ev' = ev ∧ t ∈ members (channels st) roomId ∧ t ≠ sender sig).
Proof.
  intros Hsig.
  assert (handle sig st
          = Ok (st, socket_to_emit (channels st) (sender sig) roomId ev)) as ->
    by (destruct sig; simpl in Hsig; by simplify_eq).
  eexists. split; [done|]. split; [|split].
  - intros t ev'. apply elem_of_socket_to_emit.
  - intros Hreach p (room & Hroom & Hp) Hlive Hne.
    apply elem_of_socket_to_emit. split; [done|]. split; [|done].
    destruct (reachable_invariant st Hreach) as (_ & Hj & _). eauto.
  - intros Hown t ev'. rewrite elem_of_socket_to_emit, Hown.
    rewrite not_elem_of_singleton. done.
Qed.

(** B, an occupant of R1, moves: A receives the move. *)
Lemma relay_delivery_witness :
  relayed (Move "B" "R1" payload0) = Some ("R1", OpponentMove payload0)
  ∧ ∃ out,
      handle (Move "B" "R1" payload0) (after two_in_room)
        = Ok (after two_in_room, out)
      ∧ ("A", OpponentMove payload0) ∈ out.
Proof.
  split; [reflexivity|].
  destruct (relay_delivery (Move "B" "R1" payload0) "R1"
              (OpponentMove payload0) (after two_in_room) eq_refl)
    as (out & Hrun & _ & Hocc & _).
  exists out. split; [exact Hrun|]. apply Hocc.
  - apply (after_reachable two_in_room (after two_in_room)). reflexivity.
  - exists (Room.mk ["A"; "B"] "A" (Some "B") None).
    split; [vm_compute; reflexivity|]. apply list_elem_of_here.
  - apply (bool_decide_unpack _). vm_compute. exact I.
  - apply (bool_decide_unpack _). vm_compute. exact I.
Defined.

(** C1 as stated fails: C occupies no room, yet its [move] naming R1 reaches
    both occupants of R1; and a [move] naming "A", which is no room at all
    but the channel of A's own socket, reaches A. *)
Lemma relay_from_outsider_delivered :
  run two_in_room init = Some (after two_in_room)
  ∧ ¬ occupies (after two_in_room) "C" "R1"
  ∧ move "C" "R1" payload0 (after two_in_room)
    = Ok (after two_in_room,
          [("A", OpponentMove payload0); ("B", OpponentMove payload0)])
  ∧ rooms (after two_in_room) !! "A" = None
  ∧ move "C" "A" payload0 (after two_in_room)
    = Ok (after two_in_room, [("A", OpponentMove payload0)]).
Proof.
  split; [reflexivity|]. split.
  { intros (room & Hroom & Hin). vm_compute in Hroom. injection Hroom as <-.
    simpl in Hin. set_solver. }
  split; [vm_compute; reflexivity|].
  split; vm_compute; reflexivity.
Qed.

(** Who is skipped by a relay is decided by the channel named by the
    sender's id.  Once B has left that channel, its own move in R1 comes
    back to it; once A has joined that channel, the move of B in R1 reaches
    nobody, though A occupies R1 and is live. *)
Example relay_exclusion_by_channel :
  run off_own_channel init = Some (after off_own_channel)
  ∧ move "B" "R1" payload0 (after off_own_channel)
    = Ok (after off_own_channel,
          [("A", OpponentMove payload0); ("B", OpponentMove payload0)])
  ∧ run in_sender_channel init = Some (after in_sender_channel)
  ∧ occupies (after in_sender_channel) "A" "R1"
  ∧ "A" ∈ sockets (after in_sender_channel)
  ∧ move "B" "R1" payload0 (after in_sender_channel)
    = Ok (after in_sender_channel, []).
Proof.
  split; [reflexivity|]. split; [vm_compute; reflexivity|].
  split; [reflexivity|]. split.
  { exists (Room.mk ["A"; "B"] "A" (Some "B") None).
    split; [vm_compute; reflexivity|]. apply list_elem_of_here. }
  split; [|vm_compute; reflexivity].
  apply (bool_decide_unpack _). vm_compute. exact I.
Qed.

(* ===================================================================== *)
(** ** Matchmaking queue *)
(* ===================================================================== *)

(** C2.  When [findMatch] selects a waiting entry, the room it creates and
    both [matchFound] events carry the time control fixed by these rules,
    in order: the common value when both asked for the same one; else the
    waiting entry's when only the requester ignores time; else the
    requester's when only the waiting entry ignores time; else (both
    ignore, values differ) the waiting entry's.  A selected entry always
    falls under one of the four. *)
Theorem findMatch_time_control (s tc : string) (ig : bool)
    (rnd : list Byte.byte) (st : State) (waiting : Entry.t) :
  JSArray.at_index (matchmakingQueue st)
    (matchedIndex tc ig (matchmakingQueue st)) = Some waiting →
  ∃ st' out final,
    findMatch s tc ig rnd st = Ok (st', out)
    ∧ final = finalTimeControl waiting tc ig
    ∧ (Room.timeControl <$> rooms st' !! matchedRoomId rnd) = Some (Some final)
    ∧ (∀ t ev, (t, ev) ∈ out →
         ∃ color, ev = MatchFound (matchedRoomId rnd) color final)
    ∧ (Entry.timeControl waiting = tc → final = tc)
    ∧ (Entry.timeControl waiting ≠ tc → Entry.ignoreTime waiting = false →
         ig = true → final = Entry.timeControl waiting)
    ∧ (Entry.timeControl waiting ≠ tc → Entry.ignoreTime waiting = true →
         ig = false → final = tc)
    ∧ (Entry.timeControl waiting ≠ tc → Entry.ignoreTime waiting = true →
         ig = true → final = Entry.timeControl waiting)
    ∧ (Entry.timeControl waiting = tc ∨ Entry.ignoreTime waiting = true
       ∨ ig = true).
Proof.
  intros Hsel.
  destruct (matchedIndex_selected _ _ _ _ Hsel) as (k & Hi & Hk & Hc & _).
  destruct (findMatch_selected s tc ig rnd st k waiting Hk Hi)
    as (st' & out & Hrun & _ & Hrooms & _ & Hout & _).
  exists st', out, (finalTimeControl waiting tc ig).
  split; [done|]. split; [done|]. split.
  { rewrite Hrooms, lookup_insert_eq. done. }
  split; [done|]. unfold finalTimeControl.
  split; [intros; by rewrite bool_decide_eq_true_2|].
  split; [intros ? -> ->; by rewrite bool_decide_eq_false_2|].
  split; [intros ? -> ->; by rewrite bool_decide_eq_false_2|].
  split; [intros ? -> ->; by rewrite bool_decide_eq_false_2|].
  by apply compatible_true.
Qed.

(** A waits with 3+0; B asks for 10+0 ignoring time: the game is 3+0. *)
Lemma findMatch_time_control_witness :
  JSArray.at_index (matchmakingQueue (after (one_waiting "3+0" false)))
    (matchedIndex "10+0" true
       (matchmakingQueue (after (one_waiting "3+0" false))))
    = Some (Entry.mk "A" "3+0" false)
  ∧ ∃ st' out,
      findMatch "B" "10+0" true bytes_abc123 (after (one_waiting "3+0" false))
        = Ok (st', out)
      ∧ (Room.timeControl <$> rooms st' !! "ABC123") = Some (Some "3+0").
Proof.
  split; [reflexivity|].
  destruct (findMatch_time_control "B" "10+0" true bytes_abc123
              (after (one_waiting "3+0" false)) (Entry.mk "A" "3+0" false)
              eq_refl)
    as (st' & out & final & Hrun & _ & Hroom & _ & _ & Hrule2 & _).
  exists st', out. split; [exact Hrun|].
  rewrite (Hrule2 ltac:(discriminate) eq_refl eq_refl) in Hroom.
  exact Hroom.
Defined.

(** The three matchmaking scenarios of the specification, evaluated. *)
Example match_same_time_control :
  (λ st, Room.timeControl <$> rooms st !! "ABC123")
    <$> run (one_waiting "5+0" false
             ++ [FindMatch "B" "5+0" false bytes_abc123]) init
  = Some (Some (Some "5+0")).
Proof. vm_compute. reflexivity. Qed.

Example match_requester_ignores :
  (λ st, Room.timeControl <$> rooms st !! "ABC123")
    <$> run (one_waiting "3+0" false
             ++ [FindMatch "B" "10+0" true bytes_abc123]) init
  = Some (Some (Some "3+0")).
Proof. vm_compute. reflexivity. Qed.

Example match_both_ignore :
  (λ st, Room.timeControl <$> rooms st !! "ABC123")
    <$> run (one_waiting "1+0" true
             ++ [FindMatch "B" "15+10" true bytes_abc123]) init
  = Some (Some (Some "1+0")).
Proof. vm_compute. reflexivity. Qed.

(** C3.  [findMatch] scans the queue from the front and takes the first
    entry [e] with [e.timeControl = timeControl], or [e.ignoreTime], or the
    requester's [ignoreTime]: that entry leaves the queue and becomes the
    first occupant of the new room.  When no entry qualifies, an entry for
    the requester is appended at the back and the requester alone is told
    [searching].  One of the two always applies. *)
Theorem findMatch_first_fit (s tc : string) (ig : bool)
    (rnd : list Byte.byte) (st : State) :
  let queue := matchmakingQueue st in
  (∀ e, compatible tc ig e = true ↔
     Entry.timeControl e = tc ∨ Entry.ignoreTime e = true ∨ ig = true)
  ∧ (∀ k e, queue !! k = Some e → compatible tc ig e = true →
       (∀ j e', (j < k)%nat → queue !! j = Some e' →
          compatible tc ig e' = false) →
       ∃ st' out,
         findMatch s tc ig rnd st = Ok (st', out)
         ∧ matchmakingQueue st' = delete k queue
         ∧ rooms st' !! matchedRoomId rnd =
             Some (Room.mk [Entry.socketId e; s] (Entry.socketId e) (Some s)
                     (Some (finalTimeControl e tc ig))))
  ∧ ((∀ e, e ∈ queue → compatible tc ig e = false) →
       findMatch s tc ig rnd st =
         Ok (set_queue (λ q, q ++ [Entry.mk s tc ig]) st, [(s, Searching)]))
  ∧ ((∃ k e, queue !! k = Some e ∧ compatible tc ig e = true
             ∧ ∀ j e', (j < k)%nat → queue !! j = Some e' →
                 compatible tc ig e' = false)
     ∨ (∀ e, e ∈ queue → compatible tc ig e = false)).
Proof.
  intros queue. split; [apply compatible_true|]. split; [|split].
  - intros k e Hk Hc Hlt.
    assert (matchedIndex tc ig queue = Z.of_nat k) as Hi.
    { unfold matchedIndex.
      by rewrite (findIndexFrom_first _ _ 0 k e Hk Hc Hlt), Z.add_0_l. }
    destruct (findMatch_selected s tc ig rnd st k e Hk Hi)
      as (st' & out & Hrun & Hq & Hrooms & _).
    exists st', out. split; [done|]. split; [done|].
    by rewrite Hrooms, lookup_insert_eq.
  - intros Hnone. unfold findMatch. fold queue.
    assert (matchedIndex tc ig queue = -1) as ->.
    { apply findIndexFrom_none. by apply Forall_forall. }
    done.
  - destruct (findIndexFrom_cases (compatible tc ig) queue 0 ltac:(lia))
      as [[_ Hall]|(k & x & _ & Hx & Hp & Hlt)].
    + right. by apply Forall_forall.
    + left. eauto.
Qed.

(** With B (5+0) ahead of A (3+0) in the queue, a request that ignores time
    takes B, the front entry; with only A (5+0) waiting, a 3+0 request
    finds nobody and is appended behind A. *)
Lemma findMatch_first_fit_witness :
  (∃ st' out,
     findMatch "C" "3+0" true bytes_abc123 (after behind_other) = Ok (st', out)
     ∧ matchmakingQueue st' = [Entry.mk "A" "3+0" false]
     ∧ (Room.players <$> rooms st' !! "ABC123") = Some ["B"; "C"])
  ∧ findMatch "B" "3+0" false bytes_abc123 (after (one_waiting "5+0" false))
    = Ok (set_queue (λ _, [Entry.mk "A" "5+0" false; Entry.mk "B" "3+0" false])
            (after (one_waiting "5+0" false)),
          [("B", Searching)]).
Proof.
  split.
  - destruct (findMatch_first_fit "C" "3+0" true bytes_abc123
                (after behind_other)) as (_ & Hfirst & _).
    destruct (Hfirst 0%nat (Entry.mk "B" "5+0" false) eq_refl eq_refl)
      as (st' & out & Hrun & Hq & Hroom).
    { intros j e' Hj. lia. }
    exists st', out. split; [exact Hrun|]. split; [exact Hq|].
    change (matchedRoomId bytes_abc123) with "ABC123" in Hroom.
    rewrite Hroom. reflexivity.
  - destruct (findMatch_first_fit "B" "3+0" false bytes_abc123
                (after (one_waiting "5+0" false))) as (_ & _ & Hnone & _).
    rewrite Hnone; [reflexivity|]. intros e He.
    change (matchmakingQueue (after (one_waiting "5+0" false)))
      with [Entry.mk "A" "5+0" false] in He.
    apply list_elem_of_singleton in He. subst e. reflexivity.
Defined.

(** C4, as the code has it.  In every reachable state two queue entries
    of one connection have different time controls and neither sets
    [ignoreTime] (so they are incompatible with each other).  A connection
    can hold several such entries: a [findMatch] appends an entry for its
    sender, whether or not the sender already has one, exactly when no
    queued entry is compatible with the request; otherwise it takes a
    compatible entry out of the queue and appends none.  Entries stay at
    most one per connection across every signal other than a [findMatch]
    sent by a connection that already has an entry. *)
Theorem queue_entries_of_one_connection (st : State) :
  reachable st →
  (∀ i j e1 e2, i ≠ j →
     matchmakingQueue st !! i = Some e1 → matchmakingQueue st !! j = Some e2 →
     Entry.socketId e1 = Entry.socketId e2 →
     Entry.timeControl e1 ≠ Entry.timeControl e2
     ∧ Entry.ignoreTime e1 = false ∧ Entry.ignoreTime e2 = false)
  ∧ (∀ sig st' out,
       NoDup (Entry.socketId <$> matchmakingQueue st) →
       (∀ s tc ig rnd, sig = FindMatch s tc ig rnd → ¬ queued st s) →
       handle sig st = Ok (st', out) →
       NoDup (Entry.socketId <$> matchmakingQueue st'))
  ∧ (∀ s tc ig rnd, ∃ st' out,
       findMatch s tc ig rnd st = Ok (st', out)
       ∧ ((∀ e, e ∈ matchmakingQueue st → compatible tc ig e = false) →
            out = [(s, Searching)]
            ∧ matchmakingQueue st' = matchmakingQueue st ++ [Entry.mk s tc ig]
            ∧ entriesOf s (matchmakingQueue st')
              = entriesOf s (matchmakingQueue st) ++ [Entry.mk s tc ig])
       ∧ ((∃ e, e ∈ matchmakingQueue st ∧ compatible tc ig e = true) →
            ∃ k e, matchmakingQueue st !! k = Some e
              ∧ compatible tc ig e = true
              ∧ matchmakingQueue st' = delete k (matchmakingQueue st))).
Proof.
  intros Hreach. split; [|split].
  - intros i j e1 e2 Hij H1 H2 _.
    destruct (reachable_invariant st Hreach) as (_ & _ & Hq). by apply (Hq i j).
  - intros sig st' out. apply queue_unique_step.
  - intros s tc ig rnd.
    destruct (findIndexFrom_cases (compatible tc ig) (matchmakingQueue st) 0
                ltac:(lia)) as [[Hnone Hall]|(k & x & Hk & Hx & Hp & _)].
    + eexists _, _. split.
      { unfold findMatch, matchedIndex. rewrite Hnone. simpl. done. }
      simpl. split.
      * intros _. split; [done|]. split; [done|].
        unfold entriesOf, JSArray.push. rewrite filter_app.
        by rewrite (filter_cons_True (λ e, Entry.socketId e = s)).
      * intros (e & He & Hc).
        rewrite Forall_forall in Hall. rewrite (Hall e He) in Hc. done.
    + rewrite Z.add_0_l in Hk.
      destruct (findMatch_selected s tc ig rnd st k x Hx Hk)
        as (st' & out & Hrun & Hq & _).
      exists st', out. split; [done|]. split.
      * intros Hall. rewrite (Hall x) in Hp; [done|].
        by eapply list_elem_of_lookup_2.
      * intros _. eauto.
Qed.

(** The two entries of A after [double_entry] differ in time control. *)
Lemma queue_entries_of_one_connection_witness :
  reachable (after double_entry)
  ∧ Entry.timeControl (Entry.mk "A" "5+0" false)
    ≠ Entry.timeControl (Entry.mk "A" "3+0" false).
Proof.
  assert (reachable (after double_entry)) as Hreach.
  { apply (after_reachable double_entry (after double_entry)). reflexivity. }
  split; [exact Hreach|].
  destruct (queue_entries_of_one_connection (after double_entry) Hreach)
    as [Hpair _].
  apply (Hpair 0%nat 1%nat (Entry.mk "A" "5+0" false)
           (Entry.mk "A" "3+0" false)).
  - lia.
  - reflexivity.
  - reflexivity.
  - reflexivity.
Defined.

(** C4 as stated fails: after A asked for 5+0 and then for 3+0, the queue
    holds two entries whose connection id is A. *)
Lemma queue_holds_two_entries_of_one_connection :
  (matchmakingQueue <$> run double_entry init)
  = Some [Entry.mk "A" "5+0" false; Entry.mk "A" "3+0" false].
Proof. vm_compute. reflexivity. Qed.

(** C10, as the code has it.  A connection that already waits and sends a
    second [findMatch] compatible with its own entry is matched with itself
    (occupants [s; s], both roles [s]) when its entry is the first
    compatible one in the queue.  In a reachable state that is always so
    when the second request does not set [ignoreTime]; a request that sets
    it takes the front entry of the queue, whoever owns it. *)
Theorem findMatch_self_match (s tc : string) (ig : bool)
    (rnd : list Byte.byte) (st : State) (k : nat) (own : Entry.t) :
  matchmakingQueue st !! k = Some own → Entry.socketId own = s →
  compatible tc ig own = true →
  (∀ j e, (j < k)%nat → matchmakingQueue st !! j = Some e →
     compatible tc ig e = false)
  ∨ (reachable st ∧ ig = false) →
  ∃ st' out,
    findMatch s tc ig rnd st = Ok (st', out)
    ∧ matchmakingQueue st' = delete k (matchmakingQueue st)
    ∧ rooms st' !! matchedRoomId rnd =
        Some (Room.mk [s; s] s (Some s) (Some (finalTimeControl own tc ig))).
Proof.
  intros Hk Hown Hc Hfirst.
  assert (∀ j e, (j < k)%nat → matchmakingQueue st !! j = Some e →
            compatible tc ig e = false) as Hlt.
  { destruct Hfirst as [Hlt|[Hreach ->]]; [done|].
    destruct (reachable_invariant st Hreach) as (_ & _ & Hq).
    intros j e Hj He. apply compatible_false.
    destruct (Hq j k e own ltac:(lia) He Hk) as (Hne & Hige & Higo).
    apply compatible_true in Hc as [Htc|[Hig|Hig]]; [|congruence..].
    split; [congruence|done]. }
  assert (matchedIndex tc ig (matchmakingQueue st) = Z.of_nat k) as Hi.
  { unfold matchedIndex.
    by rewrite (findIndexFrom_first _ _ 0 k own Hk Hc Hlt), Z.add_0_l. }
  destruct (findMatch_selected s tc ig rnd st k own Hk Hi)
    as (st' & out & Hrun & Hq & Hrooms & _).
  exists st', out. split; [done|]. split; [done|].
  by rewrite Hrooms, lookup_insert_eq, Hown.
Qed.

(** A, behind B in the queue with 3+0, asks for 3+0 again: it plays itself. *)
Lemma findMatch_self_match_witness :
  reachable (after behind_other)
  ∧ ∃ st' out,
      findMatch "A" "3+0" false bytes_abc123 (after behind_other)
        = Ok (st', out)
      ∧ rooms st' !! "ABC123"
        = Some (Room.mk ["A"; "A"] "A" (Some "A") (Some "3+0")).
Proof.
  assert (reachable (after behind_other)) as Hreach.
  { apply (after_reachable behind_other (after behind_other)). reflexivity. }
  split; [exact Hreach|].
  destruct (findMatch_self_match "A" "3+0" false bytes_abc123
              (after behind_other) 1%nat (Entry.mk "A" "3+0" false)
              eq_refl eq_refl eq_refl (or_intror (conj Hreach eq_refl)))
    as (st' & out & Hrun & _ & Hroom).
  exists st', out. split; [exact Hrun|exact Hroom].
Defined.

(** C10 as stated fails: A waits behind B and sends a second [findMatch]
    that ignores time, hence compatible with its own entry; it is matched
    with B, not with itself, and its own entry stays in the queue. *)
Lemma findMatch_matches_other_first :
  run behind_other init = Some (after behind_other)
  ∧ matchmakingQueue (after behind_other)
    = [Entry.mk "B" "5+0" false; Entry.mk "A" "3+0" false]
  ∧ compatible "3+0" true (Entry.mk "A" "3+0" false) = true
  ∧ ∃ st' out,
      findMatch "A" "3+0" true bytes_abc123 (after behind_other)
        = Ok (st', out)
      ∧ rooms st' !! "ABC123"
        = Some (Room.mk ["B"; "A"] "B" (Some "A") (Some "5+0"))
      ∧ matchmakingQueue st' = [Entry.mk "A" "3+0" false].
Proof.
  split; [reflexivity|]. split; [reflexivity|]. split; [reflexivity|].
  eexists _, _. split; [vm_compute; reflexivity|].
  split; vm_compute; reflexivity.
Qed.

(** C5, the code at the failing input.  The id of a matched room is three
    random bytes in upper-case hex and is not compared with the ids of
    the live rooms.  A and B play in the matched room ABC123 and C waits
    for 3+0; D asks for 3+0 and [randomBytes(3)] yields [ab c1 23] again:
    the new room takes the id ABC123 and replaces the room of A and B, and
    the number of rooms does not grow. *)
Theorem matched_room_replaces_live_room :
  run before_collision init = Some (after before_collision)
  ∧ rooms (after before_collision) !! "ABC123"
    = Some (Room.mk ["A"; "B"] "A" (Some "B") (Some "5+0"))
  ∧ matchedRoomId bytes_abc123 = "ABC123"
  ∧ ∃ st' out,
      findMatch "D" "3+0" false bytes_abc123 (after before_collision)
        = Ok (st', out)
      ∧ rooms st' !! "ABC123"
        = Some (Room.mk ["C"; "D"] "C" (Some "D") (Some "3+0"))
      ∧ dom (rooms st') = dom (rooms (after before_collision)).
Proof.
  split; [reflexivity|]. split; [reflexivity|]. split; [reflexivity|].
  eexists _, _. split; [vm_compute; reflexivity|].
  split; vm_compute; reflexivity.
Qed.

(* ===================================================================== *)
(** ** Room store *)
(* ===================================================================== *)

(** C6, as the code has it.  [leaveRoom] by an occupant [s] removes every
    occurrence of [s] from the occupant list of the room.  If nobody
    remains the room is deleted.  If one occupant remains the room stays,
    with that occupant list, and [opponentDisconnected] goes to the members
    of the room's channel that are not in the channel named by the id of
    [s] ([s] itself receives it if it has left that channel); in a
    reachable state the remaining occupant receives it provided its socket
    is still live and has not joined the channel named by the id of [s],
    and no other count than 0 or 1 can result.  When the channel named by
    the id of [s] holds [s] alone, the receivers are the members of the
    room's channel other than [s]. *)
Theorem leaveRoom_occupant (s roomId : string) (room : Room.t) (st : State) :
  rooms st !! roomId = Some room → s ∈ Room.players room →
  ∃ st' out players',
    leaveRoom s roomId st = Ok (st', out)
    ∧ players' = filter (λ id, id ≠ s) (Room.players room)
    ∧ (s ∉ players')
    ∧ (reachable st → (length players' ≤ 1)%nat)
    ∧ (length players' = 0%nat → rooms st' !! roomId = None)
    ∧ (length players' = 1%nat →
         rooms st' !! roomId = Some (Room.with_players players' room)
         ∧ (∀ t ev, (t, ev) ∈ out ↔
              ev = OpponentDisconnected ∧ t ∈ members (channels st) roomId
              ∧ t ∉ members (channels st) s)
         ∧ (reachable st → ∀ p, p ∈ players' → p ∈ sockets st →
              p ∉ members (channels st) s → (p, OpponentDisconnected) ∈ out)
         ∧ (members (channels st) s = {[s]} →
              ∀ t ev, (t, ev) ∈ out ↔
                ev = OpponentDisconnected ∧ t ∈ members (channels st) roomId
                ∧ t ≠ s)).
Proof.
  intros Hroom Hs. unfold leaveRoom.
  rewrite (proj2 (has_true roomId st)) by eauto. rewrite Hroom. simpl.
  set (players' := filter (λ id, id ≠ s) (Room.players room)).
  assert (s ∉ players') as Hnot.
  { intros [Hne _]%list_elem_of_filter. done. }
  assert (reachable st → (length players' ≤ 1)%nat) as Hle.
  { intros Hreach. destruct (reachable_invariant st Hreach) as (Hb & _).
    specialize (Hb roomId room Hroom).
    pose proof (length_filter_out s (Room.players room) Hs). unfold players'.
    lia. }
  case_bool_decide as Hlen.
  - eexists _, _, players'. split; [done|]. split; [done|]. split; [done|].
    split; [done|].
    split; [intros _; simpl; apply lookup_delete_eq|]. intros; lia.
  - eexists _, _, players'. split; [done|]. split; [done|]. split; [done|].
    split; [done|].
    split; [done|]. intros _. simpl. split; [apply lookup_insert_eq|].
    split; [intros t ev; apply elem_of_socket_to_emit|]. split.
    + intros Hreach p Hp Hlive Hout. apply elem_of_socket_to_emit.
      split; [done|]. apply list_elem_of_filter in Hp as [Hne Hp].
      split; [|done].
      destruct (reachable_invariant st Hreach) as (_ & Hj & _). eauto.
    + intros Hown t ev. rewrite elem_of_socket_to_emit, Hown.
      rewrite not_elem_of_singleton. done.
Qed.

(** The leave scenario of the specification: from R1 = [A, B], B leaves
    and A, alone in the room, is notified; then A leaves and R1 is gone. *)
Lemma leaveRoom_occupant_witness :
  ∃ st1 out1 st2 out2,
    leaveRoom "B" "R1" (after two_in_room) = Ok (st1, out1)
    ∧ (Room.players <$> rooms st1 !! "R1") = Some ["A"]
    ∧ ("A", OpponentDisconnected) ∈ out1
    ∧ leaveRoom "A" "R1" st1 = Ok (st2, out2)
    ∧ rooms st2 !! "R1" = None.
Proof.
  destruct (leaveRoom_occupant "B" "R1" (Room.mk ["A"; "B"] "A" (Some "B") None)
              (after two_in_room) eq_refl)
    as (st1 & out1 & ps1 & Hrun1 & -> & _ & _ & _ & Hone).
  { apply list_elem_of_further, list_elem_of_here. }
  destruct (Hone eq_refl) as (Hroom1 & _ & Hnotice & _).
  destruct (leaveRoom_occupant "A" "R1" _ st1 Hroom1)
    as (st2 & out2 & ps2 & Hrun2 & -> & _ & _ & Hzero & _).
  { apply list_elem_of_here. }
  exists st1, out1, st2, out2.
  split; [exact Hrun1|]. split; [by rewrite Hroom1|]. split.
  - apply Hnotice.
    + apply (after_reachable two_in_room (after two_in_room)). reflexivity.
    + apply list_elem_of_here.
    + apply (bool_decide_unpack _). vm_compute. exact I.
    + apply (bool_decide_unpack _). vm_compute. exact I.
  - split; [exact Hrun2|]. apply Hzero. reflexivity.
Defined.

(** C6 as stated fails.  A queued twice and closed; [disconnect] removed
    one entry and B was matched with the other, so ABC123 = [A, B] with A
    gone.  B leaves: one occupant remains, the room stays, and nothing is
    delivered to anybody. *)
Lemma leaveRoom_remaining_not_notified :
  run ghost_match init = Some (after ghost_match)
  ∧ rooms (after ghost_match) !! "ABC123"
    = Some (Room.mk ["A"; "B"] "A" (Some "B") (Some "2+0"))
  ∧ ∃ st',
      leaveRoom "B" "ABC123" (after ghost_match) = Ok (st', [])
      ∧ (Room.players <$> rooms st' !! "ABC123") = Some ["A"].
Proof.
  split; [reflexivity|]. split; [reflexivity|].
  eexists. split; vm_compute; reflexivity.
Qed.

(** The notice of [leaveRoom] follows the same rule.  B, which has left the
    channel of its own id, leaves R1 and receives the notice along with A;
    B leaves R1 while A is in the channel named by the id of B, and A,
    live and alone in the room, receives nothing. *)
Example leaveRoom_notice_by_channel :
  (∃ st', leaveRoom "B" "R1" (after off_own_channel)
          = Ok (st', [("A", OpponentDisconnected); ("B", OpponentDisconnected)]))
  ∧ (∃ st', leaveRoom "B" "R1" (after in_sender_channel) = Ok (st', [])
       ∧ (Room.players <$> rooms st' !! "R1") = Some ["A"]
       ∧ "A" ∈ sockets st').
Proof.
  split.
  - eexists. vm_compute. reflexivity.
  - eexists. split; [vm_compute; reflexivity|]. split; [vm_compute; reflexivity|].
    apply (bool_decide_unpack _). vm_compute. exact I.
Qed.

(** C7.  [joinRoom] on an id with no room answers the caller with the
    room-not-found error, and on a room that already lists two occupants
    with the room-full error; in both cases nothing changes, so the
    occupant list of a full room stays as it was.  No room of a reachable
    state ever lists more than two occupants. *)
Theorem joinRoom_errors (s roomId : string) (st : State) :
  (rooms st !! roomId = None →
     joinRoom s roomId st = Ok (st, [(s, ErrorMessage "Room does not exist")]))
  ∧ (∀ room, rooms st !! roomId = Some room →
       (2 ≤ length (Room.players room))%nat →
       joinRoom s roomId st = Ok (st, [(s, ErrorMessage "Room is full")]))
  ∧ (reachable st → ∀ rid room,
       rooms st !! rid = Some room → (length (Room.players room) ≤ 2)%nat).
Proof.
  split; [|split].
  - intros Hnone. unfold joinRoom.
    by rewrite (proj2 (has_false roomId st) Hnone).
  - intros room Hroom Hfull. unfold joinRoom.
    rewrite (proj2 (has_true roomId st)) by eauto. simpl.
    rewrite Hroom. simpl. by rewrite bool_decide_eq_true_2.
  - intros Hreach. by destruct (reachable_invariant st Hreach) as (Hb & _).
Qed.

(** C tries R1, which A and B fill, and R2, which does not exist. *)
Lemma joinRoom_errors_witness :
  joinRoom "C" "R2" (after two_in_room)
    = Ok (after two_in_room, [("C", ErrorMessage "Room does not exist")])
  ∧ joinRoom "C" "R1" (after two_in_room)
    = Ok (after two_in_room, [("C", ErrorMessage "Room is full")])
  ∧ (Room.players <$> rooms (after two_in_room) !! "R1") = Some ["A"; "B"].
Proof.
  split; [|split].
  - destruct (joinRoom_errors "C" "R2" (after two_in_room)) as (Hnone & _).
    apply Hnone. reflexivity.
  - destruct (joinRoom_errors "C" "R1" (after two_in_room)) as (_ & Hfull & _).
    apply (Hfull (Room.mk ["A"; "B"] "A" (Some "B") None)).
    + reflexivity.
    + simpl. lia.
  - reflexivity.
Defined.

(** C8.  [createRoom] with the id of a live room answers the caller, and
    only the caller, with the room-exists error and changes nothing: the
    room keeps its occupants, roles and time control. *)
Theorem createRoom_existing (s roomId : string) (st : State) :
  is_Some (rooms st !! roomId) →
  createRoom s roomId st = Ok (st, [(s, ErrorMessage "Room already exists")]).
Proof.
  intros Hlive. unfold createRoom.
  by rewrite (proj2 (has_true roomId st) Hlive).
Qed.

(** A creates R1; a second [createRoom] for R1, by A or by B, fails. *)
Lemma createRoom_existing_witness :
  ∃ st1,
    createRoom "A" "R1" (after [Connection "A"; Connection "B"])
      = Ok (st1, [("A", RoomCreated "R1")])
    ∧ rooms st1 !! "R1" = Some (Room.mk ["A"] "A" None None)
    ∧ createRoom "B" "R1" st1 = Ok (st1, [("B", ErrorMessage "Room already exists")])
    ∧ createRoom "A" "R1" st1 = Ok (st1, [("A", ErrorMessage "Room already exists")]).
Proof.
  eexists. split; [vm_compute; reflexivity|]. split; [reflexivity|].
  split; apply createRoom_existing; eexists; reflexivity.
Defined.

(* ===================================================================== *)
(** ** Disconnect *)
(* ===================================================================== *)




(* ===================================================================== *)
(** ** Further invariants of the reachable states *)
(* ===================================================================== *)

Lemma players_nonempty_step st sig st' out :
  players_nonempty st → handle sig st = Ok (st', out) → players_nonempty st'.
Proof.
  intros Hinv H. destruct sig; step_cases H.
  all: intros rid room Hrid; simpl in *.
  all: try (by eauto).
  all: try (apply lookup_insert_Some in Hrid as [[? ?]|[? ?]]; simplify_eq; simpl;
            [|by eauto]).
  all: try (apply lookup_delete_Some in Hrid as [? ?]; by eauto).
  all: try done.
  all: try (unfold JSArray.push; by destruct (Room.players _)).
  - eauto.
  - match goal with
    | H : bool_decide (length _ = 0%nat) = false |- _ =>
        apply bool_decide_eq_false in H; intros Hnil; by rewrite Hnil in H
    end.
  - rewrite lookup_omap in Hrid.
    destruct (rooms st !! rid) as [room0|] eqn:Hroom0; simpl in Hrid; [|done].
    unfold cleanupRoom in Hrid. repeat case_bool_decide; simplify_eq; simpl; eauto.
    intros Hnil. simpl in *. rewrite Hnil in *. done.
Qed.

Lemma members_live_step st sig st' out :
  members_live st → enabled sig st → handle sig st = Ok (st', out) →
  members_live st'.
Proof.
  intros Hinv Hen H. destruct sig; step_cases H.
  all: intros r u Hu; simpl in *.
  all: rewrite ?elem_of_members_join, ?members_leave, ?members_leaveAll in Hu.
  all: try (by eauto).
  all: try match goal with
       | H : _ ∈ sockets _ ∧ _ |- _ => destruct H as [H _]
       end.
  all: try (case_decide).
  all: try match goal with
       | H : bool_decide (_ ∈ _) = true |- _ => apply bool_decide_eq_true in H
       end.
  all: try (unfold members_live in Hinv; set_solver).
Qed.

Lemma reachable_invariant_more st :
  reachable st → players_nonempty st ∧ members_live st.
Proof.
  induction 1 as [|st sig st' out _ (Hn & Hm) Hen Hstep].
  - split.
    + intros rid room Hrid. simpl in Hrid. by rewrite lookup_empty in Hrid.
    + intros r t Ht. unfold members in Ht. simpl in Ht.
      rewrite lookup_empty in Ht. simpl in Ht. set_solver.
  - split.
    + by eapply players_nonempty_step.
    + by eapply members_live_step.
Qed.

(** X1.  A live room is never empty and never over-full: in every
    reachable state each room of [rooms] lists one or two occupants.
    ([createRoom] starts a room with one, [joinRoom] refuses a third, and
    [leaveRoom] and [disconnect] delete a room when they empty it.) *)
Theorem live_room_occupancy (st : State) (roomId : string) (room : Room.t) :
  reachable st → rooms st !! roomId = Some room →
  (1 ≤ length (Room.players room) ≤ 2)%nat.
Proof.
  intros Hreach Hroom.
  destruct (reachable_invariant st Hreach) as (Hb & _).
  destruct (reachable_invariant_more st Hreach) as (Hn & _).
  specialize (Hb roomId room Hroom). specialize (Hn roomId room Hroom).
  destruct (Room.players room); [done|]. simpl in *. lia.
Qed.

Lemma live_room_occupancy_witness :
  reachable (after two_in_room) ∧ (1 ≤ length ["A"; "B"] ≤ 2)%nat.
Proof.
  assert (reachable (after two_in_room)) as Hreach.
  { apply (after_reachable two_in_room (after two_in_room)). reflexivity. }
  split; [exact Hreach|].
  apply (live_room_occupancy (after two_in_room) "R1"
           (Room.mk ["A"; "B"] "A" (Some "B") None) Hreach).
  reflexivity.
Defined.

(** What the [forEach] of [disconnect] emits. *)
Lemma elem_of_cleanup_notices ch s (rs : gmap string Room.t) t ev :
  (t, ev) ∈ map_to_list rs ≫= cleanupNotice ch s ↔
  ev = OpponentDisconnected
  ∧ ∃ roomId room, rs !! roomId = Some room ∧ s ∈ Room.players room
      ∧ filter (λ id, id ≠ s) (Room.players room) ≠ []
      ∧ t ∈ members ch roomId.
Proof.
  rewrite list_elem_of_bind. split.
  - intros ([rid room] & Hin & Hkv%elem_of_map_to_list).
    unfold cleanupNotice in Hin. simpl in Hin.
    repeat case_bool_decide; try by apply elem_of_nil in Hin.
    apply elem_of_io_to_emit in Hin as [-> Ht]. split; [done|].
    exists rid, room. repeat split; try done.
    intros Hnil. rewrite Hnil in *. done.
  - intros (-> & rid & room & Hroom & Hs & Hne & Ht).
    exists (rid, room). split; [|by apply elem_of_map_to_list].
    unfold cleanupNotice. simpl. rewrite bool_decide_eq_true_2 by done.
    rewrite bool_decide_eq_false_2.
    + by apply elem_of_io_to_emit.
    + intros Hlen. by apply nil_length_inv in Hlen.
Qed.

(** X2.  Nothing is ever sent to a closed connection: in a reachable
    state, whatever signal is handled, every delivery it makes goes to a
    socket that is live once the handler has run.  (Channels hold live
    sockets only, and [socket.emit] answers the sender.) *)
Theorem deliveries_reach_live_sockets (st st' : State) (sig : Signal)
    (out : list Delivery) :
  reachable st → enabled sig st → handle sig st = Ok (st', out) →
  ∀ t ev, (t, ev) ∈ out → t ∈ sockets st'.
Proof.
  intros Hreach Hen H t ev Hin.
  destruct (reachable_invariant_more st Hreach) as (_ & Hm).
  assert (members_live st') as Hm' by (by eapply members_live_step).
  destruct sig; step_cases H; simpl in *.
  all: try match goal with
       | H : _ ∈ sockets _ ∧ _ |- _ => destruct H as [H _]
       end.
  all: unfold socket_emit in Hin.
  all: repeat match goal with
       | H : _ ∈ _ ++ _ |- _ => apply elem_of_app in H as [H|H]
       | H : _ ∈ [_] |- _ => apply list_elem_of_singleton in H; simplify_eq
       | H : _ ∈ [] |- _ => by apply elem_of_nil in H
       | H : _ ∈ socket_to_emit _ _ _ _ |- _ =>
           apply elem_of_socket_to_emit in H as (-> & H & _)
       | H : _ ∈ io_to_emit _ _ _ |- _ =>
           apply elem_of_io_to_emit in H as (-> & H)
       end.
  all: try done.
  all: try (by eapply (Hm' _ t)).
  all: try (by eapply (Hm _ t)).
  all: try set_solver.
  apply elem_of_cleanup_notices in Hin as (_ & rid & room & _ & _ & _ & Ht).
  by eapply Hm.
Qed.

Lemma deliveries_reach_live_sockets_witness :
  "A" ∈ sockets (after two_in_room).
Proof.
  apply (deliveries_reach_live_sockets (after two_in_room) (after two_in_room)
           (Move "B" "R1" payload0) [("A", OpponentMove payload0)])
    with (ev := OpponentMove payload0).
  - apply (after_reachable two_in_room (after two_in_room)). reflexivity.
  - apply (bool_decide_unpack _). vm_compute. exact I.
  - vm_compute. reflexivity.
  - apply list_elem_of_here.
Defined.

(* ===================================================================== *)
(** ** What a handler leaves alone *)
(* ===================================================================== *)

(** X3.  Roles are fixed.  For a room that exists before and after a
    handler runs, [white] is unchanged, [black] changes only through a
    [joinRoom] naming the room (to the joiner) and [timeControl] only
    through a [timeControlSet] naming it; the one exception is a
    [findMatch] whose random id is the id of that room, which replaces the
    room.  In particular [white] stays when the white player leaves. *)
Theorem room_fields_frame (st st' : State) (sig : Signal) (out : list Delivery)
    (roomId : string) (room room' : Room.t) :
  handle sig st = Ok (st', out) →
  rooms st !! roomId = Some room → rooms st' !! roomId = Some room' →
  (∃ s tc ig rnd, sig = FindMatch s tc ig rnd ∧ matchedRoomId rnd = roomId)
  ∨ (Room.white room' = Room.white room
     ∧ (Room.black room' = Room.black room
        ∨ ∃ s, sig = JoinRoom s roomId ∧ Room.black room' = Some s)
     ∧ (Room.timeControl room' = Room.timeControl room
        ∨ ∃ s tc, sig = TimeControlSet s roomId tc
                  ∧ Room.timeControl room' = Some tc)).
Proof.
  intros H Hroom Hroom'. destruct sig; step_cases H; simpl in *.
  all: try (right; simplify_eq; by eauto).
  all: try (apply lookup_insert_Some in Hroom' as [[? ?]|[? ?]];
            simplify_eq; simpl).
  all: try (right; simplify_eq; by eauto 10).
  all: try (left; by eauto 10).
  - apply has_false in H0. congruence.
  - apply lookup_delete_Some in Hroom' as [? ?]. right. simplify_eq. eauto.
  - rewrite lookup_omap, Hroom in Hroom'. simpl in Hroom'.
    unfold cleanupRoom in Hroom'. right.
    repeat case_bool_decide; simplify_eq; simpl; eauto.
Qed.

(** A, the white player of R1 = [A, B], leaves: R1 = [B] still has A as
    white. *)
Lemma room_fields_frame_witness :
  ∃ st' out,
    handle (LeaveRoom "A" "R1") (after two_in_room) = Ok (st', out)
    ∧ rooms st' !! "R1" = Some (Room.mk ["B"] "A" (Some "B") None)
    ∧ Room.white (Room.mk ["B"] "A" (Some "B") None)
      = Room.white (Room.mk ["A"; "B"] "A" (Some "B") None).
Proof.
  eexists _, _. split; [vm_compute; reflexivity|]. split; [reflexivity|].
  destruct (room_fields_frame (after two_in_room) _ (LeaveRoom "A" "R1") _
              "R1" (Room.mk ["A"; "B"] "A" (Some "B") None)
              (Room.mk ["B"] "A" (Some "B") None) eq_refl eq_refl eq_refl)
    as [(s & tc & ig & rnd & Hsig & _)|(Hwhite & _)].
  - discriminate Hsig.
  - exact Hwhite.
Defined.

(** X4.  Rooms are isolated from each other and from the queue.  Apart
    from the room clean-up of [disconnect], a handler changes no room but
    the one its signal names (for [findMatch]: the one whose id it draws);
    and only [findMatch], [cancelMatchmaking] and [disconnect] change the
    matchmaking queue. *)
Theorem room_isolation (st st' : State) (sig : Signal) (out : list Delivery) :
  handle sig st = Ok (st', out) →
  ((∀ s, sig ≠ DisconnectResume s) →
     ∀ roomId, target sig ≠ Some roomId →
       rooms st' !! roomId = rooms st !! roomId)
  ∧ ((∀ s tc ig rnd, sig ≠ FindMatch s tc ig rnd) →
     (∀ s, sig ≠ CancelMatchmaking s) → (∀ s, sig ≠ Disconnect s) →
     matchmakingQueue st' = matchmakingQueue st).
Proof.
  intros H. split.
  - intros Hnot rid Htarget. destruct sig; step_cases H; simpl in *;
      try done.
    all: try (rewrite lookup_insert_ne; [done|congruence]).
    + rewrite lookup_delete_ne; [done|congruence].
    + by destruct (Hnot s).
  - intros Hf Hc Hd. destruct sig; step_cases H; simpl in *; try done.
    all: try (by edestruct Hf).
    + by destruct (Hc s).
    + by destruct (Hd s).
Qed.

(** B leaves its room R2: the room R1 of A is as before. *)
Lemma room_isolation_witness :
  ∃ st' out,
    handle (LeaveRoom "B" "R2") (after two_rooms) = Ok (st', out)
    ∧ rooms st' !! "R2" = None
    ∧ rooms st' !! "R1" = Some (Room.mk ["A"] "A" None None)
    ∧ matchmakingQueue st' = matchmakingQueue (after two_rooms).
Proof.
  destruct (handle (LeaveRoom "B" "R2") (after two_rooms))
    as [[st' out]|] eqn:Hh; [|by vm_compute in Hh].
  exists st', out. split; [reflexivity|].
  destruct (room_isolation (after two_rooms) st' (LeaveRoom "B" "R2") out Hh)
    as [Hrooms Hqueue].
  pose proof (Hrooms ltac:(discriminate) "R1" ltac:(discriminate)) as HR1.
  pose proof (Hqueue ltac:(discriminate) ltac:(discriminate)
                ltac:(discriminate)) as Hq.
  split; [|split; [by rewrite HR1|exact Hq]].
  vm_compute in Hh. injection Hh as <- <-. reflexivity.
Defined.

(** X5.  The queue is first-in first-out: a handler never reorders the
    waiting entries.  After any handler the queue is the old queue with
    entries taken out, or the old queue with one entry of the sender put
    at the back. *)
Theorem queue_keeps_order (st st' : State) (sig : Signal)
    (out : list Delivery) :
  handle sig st = Ok (st', out) →
  matchmakingQueue st' `sublist_of` matchmakingQueue st
  ∨ ∃ tc ig, matchmakingQueue st'
             = matchmakingQueue st ++ [Entry.mk (sender sig) tc ig].
Proof.
  intros H. destruct sig; step_cases H; simpl in *.
  all: try (left; done).
  all: try (left; by apply sublist_delete).
  all: try (right; by eauto).
  all: left; unfold removeFromQueue; case_bool_decide;
         [apply sublist_delete|done].
Qed.

(** A waits for 5+0; B asks for 3+0 and goes behind A. *)
Lemma queue_keeps_order_witness :
  ∃ st' out,
    handle (FindMatch "B" "3+0" false bytes_abc123)
      (after (one_waiting "5+0" false)) = Ok (st', out)
    ∧ (matchmakingQueue st'
         `sublist_of` matchmakingQueue (after (one_waiting "5+0" false))
       ∨ ∃ tc ig, matchmakingQueue st'
           = matchmakingQueue (after (one_waiting "5+0" false))
             ++ [Entry.mk "B" tc ig]).
Proof.
  eexists _, _. split; [vm_compute; reflexivity|].
  exact (queue_keeps_order (after (one_waiting "5+0" false)) _
           (FindMatch "B" "3+0" false bytes_abc123) _ eq_refl).
Defined.

(* ===================================================================== *)
(** ** More on the queue and the room store *)
(* ===================================================================== *)

Lemma removeFromQueue_entries s (queue : list Entry.t) :
  entriesOf s (removeFromQueue s queue) = tail (entriesOf s queue)
  ∧ entriesOfOthers s (removeFromQueue s queue) = entriesOfOthers s queue.
Proof.
  unfold removeFromQueue, JSArray.findIndex, entriesOf, entriesOfOthers.
  destruct (findIndexFrom_cases (λ p, bool_decide (Entry.socketId p = s))
              queue 0 ltac:(lia)) as [[-> Hall]|(k & e & -> & Hk & He & Hlt)].
  - rewrite bool_decide_eq_false_2 by lia. split; [|done].
    assert (filter (λ e, Entry.socketId e = s) queue = []) as ->; [|done].
    induction Hall as [|x l Hx _ IH]; [done|].
    apply bool_decide_eq_false in Hx. by rewrite filter_cons_False.
  - rewrite bool_decide_eq_true_2 by lia.
    rewrite Z.add_0_l, splice1_of_nat, delete_take_drop.
    apply bool_decide_eq_true in He.
    assert (Forall (λ x, Entry.socketId x ≠ s) (take k queue)) as Hpre.
    { apply Forall_lookup. intros j y Hj.
      apply lookup_take_Some in Hj as [Hj Hjk].
      specialize (Hlt j y Hjk Hj). by apply bool_decide_eq_false in Hlt. }
    assert (filter (λ x, Entry.socketId x = s) (take k queue) = []) as Hnone.
    { clear -Hpre. induction Hpre as [|x l Hx _ IH]; [done|].
      by rewrite filter_cons_False. }
    pose proof (take_drop_middle queue k e Hk) as Hmid.
    assert (∀ (P : Entry.t → Prop) `{!∀ x, Decision (P x)},
              filter P queue
              = filter P (take k queue) ++ filter P (e :: drop (S k) queue))
      as Hsplit.
    { intros P ?. by rewrite <- filter_app, Hmid. }
    rewrite !filter_app, (Hsplit (λ x, Entry.socketId x = s) _),
      (Hsplit (λ x, Entry.socketId x ≠ s) _), Hnone.
    rewrite (filter_cons_True (λ x, Entry.socketId x = s)) by done.
    rewrite (filter_cons_False (λ x, Entry.socketId x ≠ s)) by (intros ?; done).
    done.
Qed.

(** X6.  [cancelMatchmaking] and the first part of [disconnect] treat the
    queue alike: they take out the first entry of the sender, if there is
    one, and nothing else.  The entries of the other connections stay, in
    their order; of the sender's entries all but the first stay; the rooms
    are untouched and nothing is emitted. *)
Theorem queue_removal_takes_first_entry (s : string) (st : State) :
  ∃ st1 st2,
    cancelMatchmaking s st = Ok (st1, [])
    ∧ disconnectBegin s st = Ok (st2, [])
    ∧ rooms st1 = rooms st ∧ rooms st2 = rooms st
    ∧ matchmakingQueue st1 = matchmakingQueue st2
    ∧ entriesOf s (matchmakingQueue st1)
      = tail (entriesOf s (matchmakingQueue st))
    ∧ entriesOfOthers s (matchmakingQueue st1)
      = entriesOfOthers s (matchmakingQueue st).
Proof.
  eexists _, _. split; [done|]. split; [done|]. simpl.
  split; [done|]. split; [done|]. split; [done|].
  apply removeFromQueue_entries.
Qed.

(** What a [joinRoom] that passes both guards does. *)
Lemma joinRoom_joins (s roomId : string) (room : Room.t) (st : State) :
  rooms st !! roomId = Some room → (length (Room.players room) < 2)%nat →
  ∃ st' out,
    joinRoom s roomId st = Ok (st', out)
    ∧ rooms st' =
        <[roomId := Room.mk (Room.players room ++ [s]) (Room.white room)
                      (Some s) (Room.timeControl room)]> (rooms st)
    ∧ matchmakingQueue st' = matchmakingQueue st
    ∧ channels st' = join s roomId (channels st)
    ∧ (∀ t ev, (t, ev) ∈ out ↔
         (t = s ∧ ev = RoomJoined roomId)
         ∨ (t = s ∧ ∃ tc, ev = TimeControlSync tc
                          ∧ Room.timeControl room = Some tc
                          ∧ tc ≠ EmptyString)
         ∨ (ev = OpponentJoined ∧ t ∈ members (channels st') roomId
            ∧ t ∉ members (channels st') s)).
Proof.
  intros Hroom Hlen. unfold joinRoom.
  rewrite (proj2 (has_true roomId st)) by eauto. simpl. rewrite Hroom. simpl.
  rewrite bool_decide_eq_false_2 by lia.
  eexists _, _. split; [done|]. simpl. split; [done|]. split; [done|].
  split; [done|].
  intros t ev. unfold socket_emit.
  destruct (Room.timeControl room) as [[|c rest]|]; simpl;
    rewrite ?elem_of_cons, elem_of_socket_to_emit;
    naive_solver.
Qed.





(** X9.  Creating, configuring and joining compose.  On a free id
    [roomId], let [b] be a socket that is still in the channel of its own
    id, let [a] be a socket outside that channel, and let [roomId] not be
    the id of [b].  Then [createRoom] by [a], [timeControlSet] with a
    non-empty value and [joinRoom] by [b] leave the room with occupants
    [a; b], [a] white, [b] black and that time control; [b] receives
    [roomJoined] and [timeControlSync] with the value and nothing else,
    [a] receives [opponentJoined] and nothing else. *)
Theorem create_set_join (a b roomId tc : string) (st : State) :
  rooms st !! roomId = None → tc ≠ EmptyString →
  b ∈ members (channels st) b → a ∉ members (channels st) b → roomId ≠ b →
  ∃ st1 st2 st3 out3,
    createRoom a roomId st = Ok (st1, [(a, RoomCreated roomId)])
    ∧ timeControlSet a roomId tc st1 = Ok (st2, [])
    ∧ joinRoom b roomId st2 = Ok (st3, out3)
    ∧ rooms st3 !! roomId = Some (Room.mk [a; b] a (Some b) (Some tc))
    ∧ (∀ ev, (b, ev) ∈ out3 ↔ ev = RoomJoined roomId ∨ ev = TimeControlSync tc)
    ∧ (∀ ev, (a, ev) ∈ out3 ↔ ev = OpponentJoined).
Proof.
  intros Hnone Htc Hown Hout_b Hrid.
  assert (a ≠ b) as Hab by (intros ->; done).
  set (st1 := set_channels (join a roomId)
                (set_rooms <[roomId := Room.mk [a] a None None]> st)).
  set (st2 := set_rooms <[roomId := Room.mk [a] a None (Some tc)]> st1).
  destruct (joinRoom_joins b roomId (Room.mk [a] a None (Some tc)) st2)
    as (st3 & out3 & Hjoin & Hrooms & _ & Hch & Hout).
  { simpl. by rewrite lookup_insert_eq. }
  { simpl. lia. }
  assert (∀ r t, t ∈ members (channels st3) r ↔
            (r = roomId ∧ (t = a ∨ t = b)) ∨ t ∈ members (channels st) r)
    as Hmem.
  { intros r t. rewrite Hch. simpl. rewrite !elem_of_members_join.
    naive_solver. }
  exists st1, st2, st3, out3. split.
  { unfold createRoom. by rewrite (proj2 (has_false roomId st) Hnone). }
  split.
  { unfold timeControlSet, has. simpl.
    rewrite bool_decide_eq_true_2 by (rewrite lookup_insert_eq; eauto).
    rewrite lookup_insert_eq. reflexivity. }
  split; [done|]. split; [by rewrite Hrooms, lookup_insert_eq|].
  simpl in Hout. split.
  - intros ev. rewrite Hout. split.
    + intros [[_ ->]|[(_ & tc' & -> & [= <-] & _)|(_ & _ & Hex)]]; eauto.
      exfalso. apply Hex, Hmem. by right.
    + intros [->| ->]; [by left|]. right. left. eauto.
  - intros ev. rewrite Hout. split.
    + intros [[? _]|[[? _]|(-> & _)]]; done.
    + intros ->. right. right. split; [done|]. rewrite !Hmem.
      split; [left; eauto|]. intros [[? _]|?]; done.
Qed.

Lemma create_set_join_witness :
  ∃ st1 st2 st3 out3,
    createRoom "A" "R1" (after [Connection "A"; Connection "B"])
      = Ok (st1, [("A", RoomCreated "R1")])
    ∧ timeControlSet "A" "R1" "5+0" st1 = Ok (st2, [])
    ∧ joinRoom "B" "R1" st2 = Ok (st3, out3)
    ∧ rooms st3 !! "R1" = Some (Room.mk ["A"; "B"] "A" (Some "B") (Some "5+0"))
    ∧ ("A", OpponentJoined) ∈ out3.
Proof.
  destruct (create_set_join "A" "B" "R1" "5+0"
              (after [Connection "A"; Connection "B"]) eq_refl)
    as (st1 & st2 & st3 & out3 & H1 & H2 & H3 & Hroom & _ & Ha).
  { discriminate. }
  { apply (bool_decide_unpack _). vm_compute. exact I. }
  { apply (bool_decide_unpack _). vm_compute. exact I. }
  { discriminate. }
  exists st1, st2, st3, out3.
  split; [exact H1|]. split; [exact H2|]. split; [exact H3|].
  split; [exact Hroom|]. apply Ha. reflexivity.
Defined.

Lemma filter_out_absent (s : string) (l : list string) :
  s ∉ l → filter (λ id, id ≠ s) l = l.
Proof.
  induction l as [|x l IH]; intros Hs; [done|].
  apply not_elem_of_cons in Hs as [Hne Hs].
  rewrite filter_cons_True by done. by rewrite IH.
Qed.

(** X10.  [leaveRoom] does not ask whether the sender is in the room.  On
    an id with no room it only makes the sender leave the channel and
    emits nothing.  On a live room that the sender does not occupy, the
    rooms and the queue stay exactly as they are, and yet
    [opponentDisconnected] is sent to the members of the room's channel
    that are not in the channel named by the sender's id: in a reachable
    state, to every live occupant that has not joined that channel. *)
Theorem leaveRoom_not_occupant (s roomId : string) (st : State) :
  (rooms st !! roomId = None →
     leaveRoom s roomId st = Ok (set_channels (leave s roomId) st, []))
  ∧ (∀ room, rooms st !! roomId = Some room → s ∉ Room.players room →
       Room.players room ≠ [] →
       ∃ st' out,
         leaveRoom s roomId st = Ok (st', out)
         ∧ rooms st' = rooms st
         ∧ matchmakingQueue st' = matchmakingQueue st
         ∧ (∀ t ev, (t, ev) ∈ out ↔
              ev = OpponentDisconnected ∧ t ∈ members (channels st) roomId
              ∧ t ∉ members (channels st) s)
         ∧ (reachable st → ∀ p, p ∈ Room.players room → p ∈ sockets st →
              p ∉ members (channels st) s → (p, OpponentDisconnected) ∈ out)).
Proof.
  split.
  - intros Hnone. unfold leaveRoom.
    by rewrite (proj2 (has_false roomId st) Hnone).
  - intros room Hroom Hs Hne. unfold leaveRoom.
    rewrite (proj2 (has_true roomId st)) by eauto. rewrite Hroom. simpl.
    rewrite filter_out_absent by done.
    rewrite bool_decide_eq_false_2
      by (intros Hlen; by apply nil_length_inv in Hlen).
    eexists _, _. split; [done|]. simpl. split.
    { apply insert_id. by destruct room. }
    split; [done|]. split; [intros t ev; apply elem_of_socket_to_emit|].
    intros Hreach p Hp Hlive Hex. apply elem_of_socket_to_emit.
    split; [done|]. split; [|done].
    destruct (reachable_invariant st Hreach) as (_ & Hj & _). eauto.
Qed.

(** C, outside R1 = [A, B], sends [leaveRoom] for R1: the room is as
    before and A and B are told that their opponent disconnected. *)
Lemma leaveRoom_not_occupant_witness :
  ∃ st' out,
    leaveRoom "C" "R1" (after two_in_room) = Ok (st', out)
    ∧ rooms st' = rooms (after two_in_room)
    ∧ ("A", OpponentDisconnected) ∈ out
    ∧ ("B", OpponentDisconnected) ∈ out.
Proof.
  destruct (leaveRoom_not_occupant "C" "R1" (after two_in_room)) as [_ Hlive].
  destruct (Hlive (Room.mk ["A"; "B"] "A" (Some "B") None) eq_refl)
    as (st' & out & Hrun & Hrooms & _ & _ & Hnotice).
  { simpl. intros Hin. apply elem_of_cons in Hin as [Hin|Hin]; [discriminate|].
    apply list_elem_of_singleton in Hin. discriminate. }
  { discriminate. }
  assert (reachable (after two_in_room)) as Hreach.
  { apply (after_reachable two_in_room (after two_in_room)). reflexivity. }
  exists st', out. split; [exact Hrun|]. split; [exact Hrooms|]. split.
  - apply (Hnotice Hreach "A"); [apply list_elem_of_here| |];
      apply (bool_decide_unpack _); vm_compute; exact I.
  - apply (Hnotice Hreach "B");
      [apply list_elem_of_further, list_elem_of_here| |];
      apply (bool_decide_unpack _); vm_compute; exact I.
Defined.

(** X11.  Once a socket has left a room with [leaveRoom], no relayed
    signal naming that room reaches it any more, whoever sends it. *)
Theorem left_room_receives_nothing (s roomId : string) (st st1 : State)
    (out1 : list Delivery) :
  leaveRoom s roomId st = Ok (st1, out1) →
  (s ∉ members (channels st1) roomId)
  ∧ ∀ sig ev, relayed sig = Some (roomId, ev) →
      ∃ out, handle sig st1 = Ok (st1, out) ∧ ∀ ev', (s, ev') ∉ out.
Proof.
  intros Hleave.
  assert (s ∉ members (channels st1) roomId) as Hout.
  { unfold leaveRoom in Hleave. step_cases Hleave; simpl;
      rewrite members_leave, decide_True by done; set_solver. }
  split; [done|]. intros sig ev Hsig.
  assert (handle sig st1
          = Ok (st1, socket_to_emit (channels st1) (sender sig) roomId ev)) as ->
    by (destruct sig; simpl in Hsig; by simplify_eq).
  eexists. split; [done|].
  intros ev' Hin%elem_of_socket_to_emit. naive_solver.
Qed.

(** B leaves R1; a move of A in R1 then does not reach B. *)
Lemma left_room_receives_nothing_witness :
  ∃ st1 out1,
    leaveRoom "B" "R1" (after two_in_room) = Ok (st1, out1)
    ∧ ∃ out, handle (Move "A" "R1" payload0) st1 = Ok (st1, out)
        ∧ ∀ ev', ("B", ev') ∉ out.
Proof.
  destruct (leaveRoom "B" "R1" (after two_in_room))
    as [[st1 out1]|] eqn:Hleave; [|by vm_compute in Hleave].
  exists st1, out1. split; [reflexivity|].
  destruct (left_room_receives_nothing "B" "R1" (after two_in_room) st1 out1
              Hleave) as [_ Hrelay].
  exact (Hrelay (Move "A" "R1" payload0) (OpponentMove payload0) eq_refl).
Defined.


(** X13.  Creating a room and leaving it again is a round trip.  On a free
    id, [createRoom] followed by the creator's [leaveRoom] gives back the
    rooms, the queue and the live sockets as they were, tells nobody that
    an opponent left, and leaves the creator outside the room's channel. *)
Theorem createRoom_leaveRoom (s roomId : string) (st : State) :
  rooms st !! roomId = None →
  ∃ st1 st2,
    createRoom s roomId st = Ok (st1, [(s, RoomCreated roomId)])
    ∧ rooms st1 !! roomId = Some (Room.mk [s] s None None)
    ∧ leaveRoom s roomId st1 = Ok (st2, [])
    ∧ rooms st2 = rooms st
    ∧ matchmakingQueue st2 = matchmakingQueue st
    ∧ sockets st2 = sockets st
    ∧ (∀ r, members (channels st2) r =
            if decide (r = roomId) then members (channels st) r ∖ {[s]}
            else members (channels st) r).
Proof.
  intros Hnone. unfold createRoom.
  rewrite (proj2 (has_false roomId st) Hnone).
  eexists _, _. split; [done|]. simpl. split; [apply lookup_insert_eq|].
  unfold leaveRoom, has. simpl.
  rewrite bool_decide_eq_true_2 by (rewrite lookup_insert_eq; eauto).
  rewrite lookup_insert_eq. simpl.
  rewrite filter_cons_False by (intros ?; done). simpl.
  split; [done|]. simpl.
  split; [by rewrite delete_insert_eq, delete_id|].
  split; [done|]. split; [done|].
  intros r. rewrite members_leave, members_join.
  destruct (decide (r = roomId)) as [->|Hne].
  - rewrite !decide_True by done. set_solver.
  - by rewrite !decide_False by done.
Qed.

Lemma createRoom_leaveRoom_witness :
  ∃ st1 st2,
    createRoom "B" "R2" (after one_in_room) = Ok (st1, [("B", RoomCreated "R2")])
    ∧ leaveRoom "B" "R2" st1 = Ok (st2, [])
    ∧ rooms st2 = rooms (after one_in_room).
Proof.
  destruct (createRoom_leaveRoom "B" "R2" (after one_in_room) eq_refl)
    as (st1 & st2 & Hcreate & _ & Hleave & Hrooms & _).
  exists st1, st2. split; [exact Hcreate|]. split; [exact Hleave|exact Hrooms].
Defined.

(** X14.  Who is told what on a match.  When [findMatch] selects a waiting
    entry, the new room has the waiting connection as [white] and the
    requester as [black]; [matchFound] with colour white goes to the
    members of the channel named by the waiting connection's id, and
    [matchFound] with colour black to the requester, both with the id of
    the room and the resolved time control; nothing else is emitted.  The
    requester joins the room's channel; the waiting connection joins it
    only if its socket is still live. *)
Theorem findMatch_notifications (s tc : string) (ig : bool)
    (rnd : list Byte.byte) (st : State) (waiting : Entry.t) :
  JSArray.at_index (matchmakingQueue st)
    (matchedIndex tc ig (matchmakingQueue st)) = Some waiting →
  ∃ st' out,
    findMatch s tc ig rnd st = Ok (st', out)
    ∧ (Room.white <$> rooms st' !! matchedRoomId rnd)
      = Some (Entry.socketId waiting)
    ∧ (Room.black <$> rooms st' !! matchedRoomId rnd) = Some (Some s)
    ∧ (∀ t ev, (t, ev) ∈ out ↔
         (ev = MatchFound (matchedRoomId rnd) ColorWhite
                 (finalTimeControl waiting tc ig)
          ∧ t ∈ members (channels st') (Entry.socketId waiting))
         ∨ (t = s ∧ ev = MatchFound (matchedRoomId rnd) ColorBlack
                            (finalTimeControl waiting tc ig)))
    ∧ (∀ r, members (channels st') r =
            if decide (r = matchedRoomId rnd)
            then {[s]} ∪ (if decide (Entry.socketId waiting ∈ sockets st)
                          then {[Entry.socketId waiting]} else ∅)
                 ∪ members (channels st) r
            else members (channels st) r).
Proof.
  intros Hsel.
  destruct (matchedIndex_selected _ _ _ _ Hsel) as (k & Hi & Hk & Hc & _).
  unfold findMatch. rewrite Hi.
  rewrite bool_decide_eq_true_2 by lia.
  rewrite at_index_of_nat, Hk. simpl.
  eexists _, _. split; [done|].
  split; [case_bool_decide; simpl; by rewrite lookup_insert_eq|].
  split; [case_bool_decide; simpl; by rewrite lookup_insert_eq|].
  split.
  - intros t ev. rewrite elem_of_app, elem_of_io_to_emit.
    unfold socket_emit. rewrite list_elem_of_singleton. simpl. naive_solver.
  - intros r. simpl. rewrite members_join.
    case_bool_decide as Hlive; simpl.
    + rewrite members_join. rewrite (decide_True _ _ Hlive).
      destruct (decide (matchedRoomId rnd = r)) as [->|Hne].
      * rewrite decide_True by done. set_solver.
      * by rewrite decide_False by done.
    + rewrite (decide_False _ _ Hlive).
      destruct (decide (matchedRoomId rnd = r)) as [->|Hne].
      * rewrite decide_True by done. set_solver.
      * by rewrite decide_False by done.
Qed.

(** A waits for 5+0 and B asks for 5+0: B is told it plays black. *)
Lemma findMatch_notifications_witness :
  ∃ st' out,
    findMatch "B" "5+0" false bytes_abc123 (after (one_waiting "5+0" false))
      = Ok (st', out)
    ∧ (Room.white <$> rooms st' !! "ABC123") = Some "A"
    ∧ ("B", MatchFound "ABC123" ColorBlack "5+0") ∈ out.
Proof.
  destruct (findMatch_notifications "B" "5+0" false bytes_abc123
              (after (one_waiting "5+0" false)) (Entry.mk "A" "5+0" false)
              eq_refl)
    as (st' & out & Hrun & Hwhite & _ & Hout & _).
  exists st', out. split; [exact Hrun|]. split; [exact Hwhite|].
  apply Hout. right. split; reflexivity.
Defined.

(* ===================================================================== *)
(** ** The id of a matched room *)
(* ===================================================================== *)

Lemma hex_byte_round_trip (b : Byte.byte) :
  isUpperHex (upperChar (hexDigit (Byte.to_N b / 16))) = true
  ∧ isUpperHex (upperChar (hexDigit (Byte.to_N b mod 16))) = true
  ∧ Byte.of_N (hexValue (upperChar (hexDigit (Byte.to_N b / 16))) * 16
               + hexValue (upperChar (hexDigit (Byte.to_N b mod 16))))
    = Some b.
Proof. destruct b; vm_compute; done. Qed.

(** X15.  The id drawn for a matched room has two characters per random
    byte (six for the three bytes the handler draws), each a digit or a
    capital A to F, and the bytes can be read back from it: different
    random bytes give different ids. *)
Theorem matchedRoomId_format (rnd : list Byte.byte) :
  String.length (matchedRoomId rnd) = (2 * length rnd)%nat
  ∧ allChars isUpperHex (matchedRoomId rnd) = true
  ∧ fromUpperHex (matchedRoomId rnd) = rnd
  ∧ (∀ rnd', matchedRoomId rnd' = matchedRoomId rnd → rnd' = rnd).
Proof.
  assert (∀ l, fromUpperHex (matchedRoomId l) = l) as Hinv.
  { induction l as [|b l IH]; [done|].
    destruct (hex_byte_round_trip b) as (_ & _ & Hb).
    unfold matchedRoomId in *. simpl. rewrite Hb. simpl. by rewrite IH. }
  split; [|split; [|split]].
  - unfold matchedRoomId. induction rnd as [|b rnd IH]; [done|].
    simpl. rewrite IH. lia.
  - unfold matchedRoomId. induction rnd as [|b rnd IH]; [done|].
    destruct (hex_byte_round_trip b) as (Hhi & Hlo & _).
    simpl. by rewrite Hhi, Hlo, IH.
  - apply Hinv.
  - intros rnd' Heq. by rewrite <- (Hinv rnd'), Heq, Hinv.
Qed.

(* ===================================================================== *)
(** ** No handler throws *)
(* ===================================================================== *)

(** X16.  Every property read in a handler is on a defined object: the
    [rooms.has] guards and the [matchedIndex !== -1] test cover each
    [rooms.get(...)] and each [matchmakingQueue[...]] that is read.  So no
    handler throws, in any state and for any signal; neither does the
    whole [disconnect]. *)
Theorem no_handler_throws (sig : Signal) (st : State) :
  is_Ok (handle sig st) ∧ is_Ok (disconnect (sender sig) st).
Proof.
  split; [apply handle_total|].
  destruct (disconnect_effect (sender sig) st) as (st' & out & -> & _).
  by eexists.
Qed.

(* ===================================================================== *)
(** ** The visitor counters *)
(* ===================================================================== *)

Section AnalyticsFacts.
Import Analytics.

Lemma count_nonneg p us : 0 ≤ count p us.
Proof. induction us as [|u us IH]; simpl; [lia|]. destruct (p u); lia. Qed.

Lemma safely_Some x : - maxSafe ≤ x ≤ maxSafe → safely x = Some x.
Proof. intros Hx. unfold safely, isSafe. by rewrite bool_decide_eq_true_2. Qed.

Lemma safely_inv x y : safely x = Some y → y = x ∧ - maxSafe ≤ x ≤ maxSafe.
Proof.
  unfold safely, isSafe. case_bool_decide; [|done]. by intros [= <-].
Qed.

Lemma incr_Some x : - maxSafe ≤ x < maxSafe → incr x = Some (x + 1).
Proof.
  intros Hx. unfold incr. rewrite safely_Some by lia. simpl.
  apply safely_Some. lia.
Qed.

Lemma decr_Some x : - maxSafe < x ≤ maxSafe → decr x = Some (x - 1).
Proof.
  intros Hx. unfold decr. rewrite safely_Some by lia. simpl.
  apply safely_Some. lia.
Qed.

(** The counting updates, one at a time. *)
Lemma apply_counting u a :
  isLoad u = false →
  0 ≤ currentOnline a ≤ peakConcurrent a →
  peakConcurrent a + (if isOnline u then 1 else 0) ≤ maxSafe →
  - maxSafe ≤ uniqueVisitors a →
  uniqueVisitors a + (if isUniqueVisit u then 1 else 0) ≤ maxSafe →
  - maxSafe ≤ totalVisits a →
  totalVisits a + (if isUniqueVisit u then 1 else 0) ≤ maxSafe →
  ∃ a', apply u a = Some a'
    ∧ uniqueVisitors a'
      = uniqueVisitors a + (if isUniqueVisit u then 1 else 0)
    ∧ totalVisits a' = totalVisits a + (if isUniqueVisit u then 1 else 0)
    ∧ 0 ≤ currentOnline a' ≤ peakConcurrent a'
    ∧ peakConcurrent a ≤ peakConcurrent a'
      ≤ peakConcurrent a + (if isOnline u then 1 else 0)
    ∧ currentOnline a + (if isOnline u then 1 else 0)
        - (if isOffline u then 1 else 0)
      ≤ currentOnline a'
      ≤ currentOnline a + (if isOnline u then 1 else 0).
Proof.
  intros Hload Hb Hp Hu1 Hu2 Ht1 Ht2.
  assert (0 < maxSafe) as Hpos by reflexivity.
  destruct u as [[]| | | |]; simpl in *; try done.
  - unfold countVisitor. rewrite !incr_Some by lia. simpl.
    eexists. split; [done|]. simpl. lia.
  - exists a. split; [done|]. lia.
  - unfold countOnline. rewrite incr_Some, safely_Some by lia. simpl.
    eexists. split; [done|]. case_bool_decide; simpl; lia.
  - unfold countOffline. rewrite decr_Some by lia. simpl.
    eexists. split; [done|]. simpl. lia.
Qed.

(** ... and in sequence. *)
Lemma applyAll_counting us a :
  Forall (λ u, isLoad u = false) us → roomFor us a →
  ∃ a', applyAll us a = Some a'
    ∧ uniqueVisitors a' = uniqueVisitors a + count isUniqueVisit us
    ∧ totalVisits a' = totalVisits a + count isUniqueVisit us
    ∧ 0 ≤ currentOnline a' ≤ peakConcurrent a'
    ∧ peakConcurrent a ≤ peakConcurrent a'
      ≤ peakConcurrent a + count isOnline us
    ∧ currentOnline a + count isOnline us - count isOffline us
      ≤ currentOnline a'
      ≤ currentOnline a + count isOnline us.
Proof.
  intros Hus. revert a.
  induction Hus as [|u us Hu _ IH]; intros a (Hb & Hp & Hu1 & Hu2 & Ht1 & Ht2).
  - exists a. simpl. split; [done|]. lia.
  - simpl in *.
    pose proof (count_nonneg isOnline us).
    pose proof (count_nonneg isOffline us).
    pose proof (count_nonneg isUniqueVisit us).
    destruct (apply_counting u a Hu Hb)
      as (a1 & Hrun & Hv1 & Hv2 & Hb1 & Hp1 & Ho1);
      [destruct (isOnline u); lia|lia|destruct (isUniqueVisit u); lia|lia
      |destruct (isUniqueVisit u); lia|].
    destruct (IH a1) as (a' & Hrun' & Hw1 & Hw2 & Hb' & Hp' & Ho').
    { unfold roomFor. destruct (isOnline u), (isUniqueVisit u); lia. }
    exists a'. rewrite Hrun. simpl. split; [done|].
    destruct (isOnline u), (isUniqueVisit u), (isOffline u); lia.
Qed.

(** X17.  The online counter and its peak, across the counter updates of
    the [fingerprint] and [disconnect] handlers in any order the [await]s
    allow, with no assignment of [loadAnalytics] among them and as long as
    the counters stay safe integers.  From a state with
    [0 <= currentOnline <= peakConcurrent] (the initial one is such), every
    update has a result, the counter stays non-negative and never above
    the peak, and the peak never falls and rises by at most the connects
    counted.  The counter is at least its old value plus the connects
    counted minus the disconnects counted (the clamp at zero can only
    raise it) and at most its old value plus the connects counted. *)
Theorem online_counter_bounds (us : list update) (a : t) :
  Forall (λ u, isLoad u = false) us → roomFor us a →
  ∃ a', applyAll us a = Some a'
    ∧ 0 ≤ currentOnline a' ≤ peakConcurrent a'
    ∧ peakConcurrent a ≤ peakConcurrent a'
      ≤ peakConcurrent a + count isOnline us
    ∧ currentOnline a + count isOnline us - count isOffline us
      ≤ currentOnline a'
      ≤ currentOnline a + count isOnline us.
Proof.
  intros Hus Hroom.
  destruct (applyAll_counting us a Hus Hroom) as (a' & Hrun & _ & _ & Hrest).
  by exists a'.
Qed.

(** A socket closes before any fingerprint was counted, then two
    fingerprints arrive and one socket closes: one is online, the peak
    was two. *)
Lemma online_counter_bounds_witness :
  ∃ a', applyAll [Offline; Online; Visitor true; Online; Offline] initial
          = Some a'
    ∧ currentOnline a' = 1 ∧ peakConcurrent a' = 2.
Proof.
  destruct (online_counter_bounds
              [Offline; Online; Visitor true; Online; Offline] initial)
    as (a' & Hrun & _).
  { repeat constructor. }
  { unfold roomFor, maxSafe. simpl. lia. }
  exists a'. split; [exact Hrun|].
  vm_compute in Hrun. injection Hrun as <-. split; reflexivity.
Defined.

(** X18.  [uniqueVisitors] and [totalVisits] under the same updates, with
    no assignment of [loadAnalytics] among them and as long as the counters
    stay safe integers: each grows by the number of fingerprints that the
    database reported as new, so they never fall and their difference
    never changes.  One update at a time, whatever the state: only a new
    fingerprint and the load of a stored document change either counter,
    and the load sets each to its stored value, zero for a missing one,
    independently of the other and of what it was. *)
Theorem visitor_counters (us : list update) (a : t) :
  (Forall (λ u, isLoad u = false) us → roomFor us a →
     ∃ a', applyAll us a = Some a'
       ∧ uniqueVisitors a' = uniqueVisitors a + count isUniqueVisit us
       ∧ totalVisits a' = totalVisits a + count isUniqueVisit us
       ∧ uniqueVisitors a' - totalVisits a'
         = uniqueVisitors a - totalVisits a)
  ∧ (∀ u a', apply u a = Some a' → isUniqueVisit u = false →
       (∀ stored, u ≠ LoadStats (Some stored)) →
       uniqueVisitors a' = uniqueVisitors a ∧ totalVisits a' = totalVisits a)
  ∧ (∀ stored a', apply (LoadStats (Some stored)) a = Some a' →
       uniqueVisitors a' = default 0 (storedUnique stored)
       ∧ totalVisits a' = default 0 (storedTotal stored)
       ∧ peakConcurrent a' = default 0 (storedPeak stored)
       ∧ currentOnline a' = currentOnline a).
Proof.
  split; [|split].
  - intros Hus Hroom.
    destruct (applyAll_counting us a Hus Hroom)
      as (a' & Hrun & Hu & Ht & _).
    exists a'. split; [done|]. split; [done|]. split; [done|]. lia.
  - intros u a' Hrun Hnew Hstored.
    destruct u as [[]| | |[stored|]|n]; simpl in *; try done.
    + by injection Hrun as <-.
    + unfold countOnline in Hrun.
      destruct (incr (currentOnline a)); [|done].
      destruct (safely (peakConcurrent a)); [|done]. simpl in Hrun.
      injection Hrun as <-. by case_bool_decide.
    + unfold countOffline in Hrun.
      destruct (decr (currentOnline a)); [|done]. simpl in Hrun.
      by injection Hrun as <-.
    + by destruct (Hstored stored).
    + by injection Hrun as <-.
    + unfold loadOnline in Hrun. destruct (safely n); [|done].
      simpl in Hrun. by injection Hrun as <-.
  - intros stored a' Hrun. simpl in Hrun. unfold loadStats, orZero in Hrun.
    destruct (safely (default 0 (storedUnique stored))) as [x|] eqn:Hx;
      [|done].
    destruct (safely (default 0 (storedTotal stored))) as [y|] eqn:Hy;
      [|done].
    destruct (safely (default 0 (storedPeak stored))) as [z|] eqn:Hz;
      [|done].
    simpl in Hrun. injection Hrun as <-. simpl.
    apply safely_inv in Hx as [-> _]. apply safely_inv in Hy as [-> _].
    apply safely_inv in Hz as [-> _]. done.
Qed.

(** Two new fingerprints and a known one from the initial state: both
    counters are at two.  Loading a stored document that lacks
    [totalVisits] then sets them to different values. *)
Lemma visitor_counters_witness :
  ∃ a' a'',
    applyAll [Visitor true; Online; Visitor false; Visitor true] initial
      = Some a'
    ∧ uniqueVisitors a' = 2 ∧ totalVisits a' = 2
    ∧ apply (LoadStats (Some (mkStats (Some 7) None (Some 3)))) a' = Some a''
    ∧ uniqueVisitors a'' = 7 ∧ totalVisits a'' = 0.
Proof.
  destruct (visitor_counters
              [Visitor true; Online; Visitor false; Visitor true] initial)
    as (Hcount & _ & _).
  destruct Hcount as (a' & Hrun & Hu & Ht & _).
  { repeat constructor. }
  { unfold roomFor, maxSafe. simpl. lia. }
  destruct (apply (LoadStats (Some (mkStats (Some 7) None (Some 3)))) a')
    as [a''|] eqn:Hload.
  - exists a', a''. split; [exact Hrun|]. split; [exact Hu|].
    split; [exact Ht|]. split; [exact Hload|].
    destruct (visitor_counters [] a') as (_ & _ & Hstored).
    destruct (Hstored _ _ Hload) as (Hu' & Ht' & _). split; assumption.
  - vm_compute in Hrun. injection Hrun as <-. vm_compute in Hload. discriminate.
Defined.
End AnalyticsFacts.
